(** * Ship simulation: routing and kinematics

    A shallow embedding of [src/main.py]: the [Cul] event log, the [Ship]
    state machine ([set_path], [update]), the router [fastest_path] and the
    set-up part of [main] (adjacency construction, per-ship routing, one
    animation frame).

    Numbers.  The program computes with numpy's [float64].  Every function
    below is written once, over the interface [Arith], which lists the
    operations the source applies to numbers, and [float_arith] instantiates
    it with IEEE 754 binary64 (Rocq's primitive floats), which is what numpy
    computes, NaN and infinities included; the model is executable.  A
    statement made for every [Arith] instance holds of the program.  Where a
    statement needs the numbers to be ordered it says so by a hypothesis
    [TimeOrder]: binary64 comparisons are all false on NaN.

    Not modelled: the SQLite connection and the wall-clock timestamp of a
    row (the log is the list of rows in insertion order), the [logging]
    output, console input other than the route loop, matplotlib. *)

From Stdlib Require Import Floats Lia ZArith.
From stdpp Require Import base option list gmap strings.

(** ** Numbers *)

Class Arith (num : Type) := {
  zero : num;
  add : num → num → num;
  sub : num → num → num;
  mul : num → num → num;
  div : num → num → num;
  sqrt : num → num;
  eqb : num → num → bool;   (* Python [==] *)
  ltb : num → num → bool;   (* Python [<]  *)
  leb : num → num → bool    (* Python [<=] *)
}.

#[global] Instance float_arith : Arith float := {|
  zero := 0%float;
  add := PrimFloat.add;
  sub := PrimFloat.sub;
  mul := PrimFloat.mul;
  div := PrimFloat.div;
  sqrt := PrimFloat.sqrt;
  eqb := PrimFloat.eqb;
  ltb := PrimFloat.ltb;
  leb := PrimFloat.leb
|}.


Inductive Metric := route_enter | distance_traveled | route_exit.

#[global] Instance Metric_eq_dec : EqDecision Metric.
Proof. solve_decision. Defined.

Section Model.
Context {num : Type} `{Arith num}.

(** A 2-D point: a tuple [(x, y)] or a numpy array of two floats. *)
Definition vec : Type := num * num.

(** [a - b] on arrays. *)
Definition vsub (a b : vec) : vec := (sub a.1 b.1, sub a.2 b.2).
(** [a + b] on arrays. *)
Definition vadd (a b : vec) : vec := (add a.1 b.1, add a.2 b.2).
(** [a / k] and [a * k], array by scalar. *)
Definition vdiv (a : vec) (k : num) : vec := (div a.1 k, div a.2 k).
Definition vscale (a : vec) (k : num) : vec := (mul a.1 k, mul a.2 k).

(** [np.linalg.norm] of a vector of two floats: [sqrt(x.dot(x))]. *)
Definition norm (a : vec) : num := sqrt (add (mul a.1 a.1) (mul a.2 a.2)).

(** Python's builtin [min(a, b)]: [b] when [b < a], otherwise [a]. *)
Definition pymin (a b : num) : num := if ltb b a then b else a.

(** ** The event log ([Cul]) *)

(** A row of table [cul_data], without its id and timestamp. *)
Record Event := mkEvent {
  ev_ship : string;
  ev_metric : Metric;
  ev_value : num;
  ev_pos : vec
}.

(** The table, in insertion order. *)
Definition Cul : Type := list Event.

(** [Cul.log_data]; every call in the source passes [pos]. *)
Definition log_data (cul : Cul) (ship_name : string) (metric : Metric)
    (value : num) (pos : vec) : Cul :=
  cul ++ [mkEvent ship_name metric value pos].

(** [Cul.distance]. *)
Definition distance (pos1 pos2 : vec) : num := norm (vsub pos2 pos1).

(** ** Ships *)

Record Ship := mkShip {
  name : string;
  pos : vec;
  speed : num;
  path : list vec;
  target_index : nat;
  target : option vec
}.

(** [Ship.__init__]. *)
Definition new_ship (nm : string) (start_pos : vec) (spd : num) : Ship :=
  mkShip nm start_pos spd [] 0 None.

(** [Ship.set_path]: the ship and the log after the call. *)
Definition set_path (s : Ship) (p : list vec) (cul : Cul) : Ship * Cul :=
  if bool_decide (p = []) || bool_decide (length p < 2) then (s, cul)
  else
    match p !! 1 with
    | None => (s, cul)      (* unreachable: [length p >= 2] *)
    | Some t =>
        let s' := mkShip (name s) (pos s) (speed s) p 1 (Some t) in
        (s', log_data cul (name s') route_enter zero (pos s'))
    end.

(** [Ship.update]: one tick. *)
Definition update (s : Ship) (cul : Cul) : Ship * Cul :=
  match target s with
  | None => (s, cul)
  | Some tgt =>
      let direction := vsub tgt (pos s) in
      let dist_to_target := norm direction in
      let step := pymin (speed s) dist_to_target in
      let pos' := vadd (pos s) (vscale (vdiv direction dist_to_target) step) in
      let cul1 := log_data cul (name s) distance_traveled step pos' in
      if leb dist_to_target (speed s) then
        let cul2 := log_data cul1 (name s) route_exit dist_to_target pos' in
        let target_index' := S (target_index s) in
        if bool_decide (target_index' < length (path s)) then
          match path s !! target_index' with
          | None => (s, cul)  (* unreachable: index in range *)
          | Some t =>
              (mkShip (name s) pos' (speed s) (path s) target_index' (Some t),
               log_data cul2 (name s) route_enter zero pos')
          end
        else
          (mkShip (name s) pos' (speed s) (path s) target_index' None, cul2)
      else
        (mkShip (name s) pos' (speed s) (path s) (target_index s) (Some tgt),
         cul1)
  end.

(** [n] successive calls of [update]. *)
Fixpoint ticks (n : nat) (s : Ship) (cul : Cul) : Ship * Cul :=
  match n with
  | 0 => (s, cul)
  | S n' => let '(s', cul') := update s cul in ticks n' s' cul'
  end.

(** Spec: the total length of a path, the sum of the Euclidean lengths of
    its legs. *)
Fixpoint total_path_length (p : list vec) : num :=
  match p with
  | a :: ((b :: _) as p') => add (distance a b) (total_path_length p')
  | _ => zero
  end.

(** The metric kinds of a log, in order. *)
Definition kinds (cul : Cul) : list Metric := ev_metric <$> cul.

(** ** The router *)

(** An entry of the priority queue: [(total_time, node, path)]. *)
Definition entry : Type := num * string * list string.

(** Python's [<] on lists of strings. *)
Fixpoint list_ltb (a b : list string) : bool :=
  match a, b with
  | [], [] => false
  | [], _ :: _ => true
  | _ :: _, [] => false
  | x :: a', y :: b' => if String.eqb x y then list_ltb a' b' else String.ltb x y
  end.

(** Python's [<] on the queue's tuples: the first component at which the
    two tuples differ (by [==]) decides. *)
Definition entry_ltb (a b : entry) : bool :=
  let '(t1, n1, p1) := a in
  let '(t2, n2, p2) := b in
  if negb (eqb t1 t2) then ltb t1 t2
  else if negb (String.eqb n1 n2) then String.ltb n1 n2
  else list_ltb p1 p2.

(** [heapq] is modelled by its contract, not by its array layout: the
    queue is the list of its entries, [heappush] adds one, [heappop]
    removes a least one for [<] ([None] on an empty queue).  When [<] does
    not order the entries (a time that is NaN) the array layout decides
    which entry [heapq] pops; the runs below that involve NaN never hold
    more than one entry in the queue. *)
Definition heappush (queue : list entry) (e : entry) : list entry := e :: queue.

Fixpoint heappop (queue : list entry) : option (entry * list entry) :=
  match queue with
  | [] => None
  | e :: rest =>
      match heappop rest with
      | None => Some (e, [])
      | Some (m, rest') =>
          if entry_ltb m e then Some (m, e :: rest') else Some (e, rest)
      end
  end.

(** What a call can do: return, raise [KeyError] (a name missing from a
    dict), or still be running when the fuel is spent. *)
Inductive res (A : Type) : Type :=
| Ret (a : A)
| KeyErr
| Timeout.
Arguments Ret {A} a.
Arguments KeyErr {A}.
Arguments Timeout {A}.

Definition rbind {A B} (m : res A) (k : A → res B) : res B :=
  match m with
  | Ret a => k a
  | KeyErr => KeyErr
  | Timeout => Timeout
  end.

(** [d[k]] on a dict. *)
Definition getitem {V} (d : gmap string V) (k : string) : res V :=
  match d !! k with
  | Some v => Ret v
  | None => KeyErr
  end.

(** [norm(positions[neighbor] - positions[node]) / ship_speed]. *)
Definition travel_time (positions : gmap string vec) (ship_speed : num)
    (node neighbor : string) : res num :=
  rbind (getitem positions neighbor) (λ pn,
  rbind (getitem positions node) (λ pu,
  Ret (div (norm (vsub pn pu)) ship_speed))).

(** The [for neighbor in graph.get(node, [])] loop. *)
Fixpoint push_neighbors (positions : gmap string vec) (ship_speed : num)
    (total_time : num) (node : string) (path : list string)
    (neighbors : list string) (queue : list entry) : res (list entry) :=
  match neighbors with
  | [] => Ret queue
  | neighbor :: rest =>
      rbind (travel_time positions ship_speed node neighbor) (λ tt,
      push_neighbors positions ship_speed total_time node path rest
        (heappush queue (add total_time tt, neighbor, path ++ [neighbor])))
  end.

(** The [while queue] loop, one iteration per unit of fuel. *)
Fixpoint search (fuel : nat) (graph : gmap string (list string))
    (end_ : string) (positions : gmap string vec) (ship_speed : num)
    (queue : list entry) (visited : gmap string num)
    : res (option (list string)) :=
  match fuel with
  | 0 => Timeout
  | S fuel' =>
      match heappop queue with
      | None => Ret None
      | Some ((total_time, node, path), queue') =>
          if bool_decide (node = end_) then Ret (Some path)
          else if match visited !! node with
                  | Some t => leb t total_time
                  | None => false
                  end
          then search fuel' graph end_ positions ship_speed queue' visited
          else
            rbind (push_neighbors positions ship_speed total_time node path
                     (default [] (graph !! node)) queue') (λ queue'',
            search fuel' graph end_ positions ship_speed queue''
              (<[node := total_time]> visited))
      end
  end.

Definition fastest_path (fuel : nat) (graph : gmap string (list string))
    (start end_ : string) (positions : gmap string vec) (ship_speed : num)
    : res (option (list string)) :=
  search fuel graph end_ positions ship_speed [(zero, start, [start])] ∅.


(** ** The driver ([main]) *)

(** [graph.setdefault(a, []).append(b)]. *)
Definition add_edge (graph : gmap string (list string)) (a b : string)
    : gmap string (list string) :=
  <[a := default [] (graph !! a) ++ [b]]> graph.

Definition build_graph (routes : list (string * string))
    : gmap string (list string) :=
  foldl (λ graph '(a, b), add_edge (add_edge graph a b) b a) ∅ routes.

(** An element of [ships_data]. *)
Record ShipData := mkShipData {
  sd_name : string;
  sd_start : string;
  sd_end : string;
  sd_speed : num
}.

(** [[planets[p] for p in path]]. *)
Fixpoint coords (planets : gmap string vec) (p : list string) : res (list vec) :=
  match p with
  | [] => Ret []
  | x :: p' =>
      rbind (getitem planets x) (λ c,
      rbind (coords planets p') (λ cs, Ret (c :: cs)))
  end.

Definition no_path_message (s : ShipData) : string :=
  "No path found for " +:+ sd_name s +:+ " from " +:+ sd_start s +:+
  " to " +:+ sd_end s.

(** The [for s in ships_data] loop: the active ships, the log and the
    printed lines. *)
Fixpoint setup_ships (fuel : nat) (planets : gmap string vec)
    (graph : gmap string (list string)) (ships_data : list ShipData)
    (ships : list Ship) (cul : Cul) (out : list string)
    : res (list Ship * Cul * list string) :=
  match ships_data with
  | [] => Ret (ships, cul, out)
  | s :: rest =>
      rbind (getitem planets (sd_start s)) (λ start_pos,
      let ship := new_ship (sd_name s) start_pos (sd_speed s) in
      rbind (fastest_path fuel graph (sd_start s) (sd_end s) planets (speed ship))
        (λ path,
      match path with
      | Some ((_ :: _) as p) =>
          rbind (coords planets p) (λ cs,
          let '(ship', cul') := set_path ship cs cul in
          setup_ships fuel planets graph rest (ships ++ [ship']) cul' out)
      | _ =>
          setup_ships fuel planets graph rest ships cul
            (out ++ [no_path_message s])
      end))
  end.

(** [animate]: one frame ticks every active ship once, in order. *)
Fixpoint animate (ships : list Ship) (cul : Cul) : list Ship * Cul * bool :=
  match ships with
  | [] => ([], cul, true)
  | ship :: rest =>
      let '(ship', cul1) := update ship cul in
      let '(rest', cul2, all_done) := animate rest cul1 in
      (ship' :: rest', cul2,
       match target ship' with Some _ => false | None => all_done end)
  end.

Fixpoint frames (n : nat) (ships : list Ship) (cul : Cul) : list Ship * Cul :=
  match n with
  | 0 => (ships, cul)
  | S n' => let '(ships', cul', _) := animate ships cul in frames n' ships' cul'
  end.

(** [main], from the configuration to the state after [nframes] frames. *)
Definition simulate (fuel : nat) (planets : gmap string vec)
    (routes : list (string * string)) (ships_data : list ShipData)
    (nframes : nat) : res (list Ship * Cul * list string) :=
  let graph := build_graph routes in
  rbind (setup_ships fuel planets graph ships_data [] [] []) (λ '(ships, cul, out),
  let '(ships', cul') := frames nframes ships cul in
  Ret (ships', cul', out)).

End Model.

Arguments Ret {A} a.
Arguments KeyErr {A}.
Arguments Timeout {A}.
Arguments ShipData num : clear implicits.
Arguments entry num : clear implicits.

Arguments Event num : clear implicits.
Arguments Ship num : clear implicits.
Arguments Cul num : clear implicits.
Arguments vec num : clear implicits.

(** [route_enter, distance_traveled (n times), route_exit], once per
    element [n] of [ns]. *)
Definition lifetime_kinds (ns : list nat) : list Metric :=
  mjoin ((λ n, route_enter :: repeat distance_traveled n ++ [route_exit]) <$> ns).

(** * Properties *)

(** ** Frame properties of the ship state machine *)

Section ShipFacts.
Context {num : Type} `{Arith num}.
Implicit Types (s : Ship num) (cul : Cul num) (p : list (vec num)).

(** The ship that [update] returns does not depend on the log it is given,
    and the log only grows. *)
Lemma update_log s cul :
  update s cul = ((update s []).1, cul ++ (update s []).2).
Proof.
  unfold update, log_data.
  repeat (case_match; simpl; try rewrite app_nil_r; rewrite <- ?app_assoc;
          try reflexivity).
Qed.

Lemma ticks_log n s cul :
  ticks n s cul = ((ticks n s []).1, cul ++ (ticks n s []).2).
Proof.
  revert s cul. induction n as [|n IH]; intros s cul; simpl.
  - by rewrite app_nil_r.
  - rewrite (update_log s cul). destruct (update s []) as [s1 c1]; simpl.
    rewrite (IH s1 (cul ++ c1)), (IH s1 c1). simpl. by rewrite app_assoc.
Qed.

Lemma ticks_add n m s cul :
  ticks (n + m) s cul = ticks m (ticks n s cul).1 (ticks n s cul).2.
Proof.
  revert s cul. induction n as [|n IH]; intros s cul; simpl; [done|].
  destruct (update s cul) as [s1 c1]. apply IH.
Qed.

Lemma update_idle s cul : target s = None → update s cul = (s, cul).
Proof. intros Ht. unfold update. by rewrite Ht. Qed.

Lemma ticks_idle n s cul : target s = None → ticks n s cul = (s, cul).
Proof.
  intros Ht. induction n as [|n IH]; simpl; [done|].
  by rewrite update_idle.
Qed.

Lemma set_path_cases s p cul :
  set_path s p cul =
    match p with
    | _ :: t :: _ =>
        (mkShip (name s) (pos s) (speed s) p 1 (Some t),
         log_data cul (name s) route_enter zero (pos s))
    | _ => (s, cul)
    end.
Proof. unfold set_path. by destruct p as [|a [|b p]]. Qed.

(** C6. [set_path] with fewer than two points (an empty sequence or a
    single point) changes nothing: the ship, with its path, target index,
    target and position, and the log are returned as they were.  With two
    or more points it stores the path, sets [target_index] to 1 and
    [target] to the second point, and appends exactly one [route_enter]
    row with value 0 at the ship's current position. *)
Theorem set_path_spec s p cul :
  set_path s p cul =
    match p with
    | _ :: t :: _ =>
        (mkShip (name s) (pos s) (speed s) p 1 (Some t),
         cul ++ [mkEvent (name s) route_enter zero (pos s)])
    | _ => (s, cul)
    end.
Proof.
  unfold set_path, log_data.
  destruct p as [|a [|b p]]; simpl; try reflexivity.
Qed.

(** C9. A tick of an idle ship (target [None]) is a no-op: the ship, with
    its position, path, target index and target, is unchanged, and no row
    is added to the log. *)
Theorem update_idle_noop s cul :
  target s = None → update s cul = (s, cul).
Proof. intros Ht. unfold update. rewrite Ht. reflexivity. Qed.

End ShipFacts.

(** ** The order of events, for every arithmetic *)

Section EventOrder.
Context {num : Type} `{Arith num}.
Implicit Types (s : Ship num) (cul : Cul num).

Lemma lifetime_kinds_snoc ns n :
  lifetime_kinds (ns ++ [n]) =
    lifetime_kinds ns ++ route_enter :: repeat distance_traveled n ++ [route_exit].
Proof.
  unfold lifetime_kinds. rewrite fmap_app, join_app. simpl.
  by rewrite app_nil_r.
Qed.

(** The state of a ship under way, [n] ticks after [set_path]: the legs
    done so far took [ns] ticks each, the current one [k] so far. *)
Definition en_route (cul0 : Cul num) (n : nat) s cul : Prop :=
  ∃ ns k,
    is_Some (target s) ∧
    S (length ns) = target_index s ∧ target_index s < length (path s) ∧
    Forall (λ m, 1 <= m) ns ∧ sum_list ns + k = n ∧
    kinds cul = kinds cul0 ++ lifetime_kinds ns ++
                route_enter :: repeat distance_traveled k.

(** The state of a ship that went idle within [n] ticks. *)
Definition finished (cul0 : Cul num) (n : nat) s cul : Prop :=
  ∃ ns,
    target s = None ∧ S (length ns) = length (path s) ∧
    Forall (λ m, 1 <= m) ns ∧ sum_list ns <= n ∧
    kinds cul = kinds cul0 ++ lifetime_kinds ns.

Lemma set_path_en_route s0 (p : list (vec num)) cul0 :
  2 <= length p →
  en_route cul0 0 (set_path s0 p cul0).1 (set_path s0 p cul0).2 ∧
  path (set_path s0 p cul0).1 = p.
Proof.
  intros Hlen. rewrite set_path_cases.
  destruct p as [|a [|b p]]; simpl in Hlen; try lia.
  split; [|done]. exists [], 0. simpl.
  split; [by eexists|]. split; [done|]. split; [lia|].
  split; [constructor|]. split; [done|].
  unfold kinds, log_data. by rewrite fmap_app.
Qed.

Lemma update_en_route cul0 n s cul :
  en_route cul0 n s cul →
  path (update s cul).1 = path s ∧
  (en_route cul0 (S n) (update s cul).1 (update s cul).2 ∨
   finished cul0 (S n) (update s cul).1 (update s cul).2).
Proof.
  intros (ns & k & [tgt Ht] & Hidx & Hlt & Hpos & Hsum & Hk).
  assert (Hdt : kinds (log_data cul (name s) distance_traveled
                          (pymin (speed s) (norm (vsub tgt (pos s))))
                          (vadd (pos s)
                             (vscale (vdiv (vsub tgt (pos s)) (norm (vsub tgt (pos s))))
                                (pymin (speed s) (norm (vsub tgt (pos s)))))))
                = kinds cul0 ++ lifetime_kinds ns ++
                  route_enter :: repeat distance_traveled (S k)).
  { unfold log_data, kinds in *. rewrite fmap_app, Hk. simpl.
    rewrite <- !app_assoc. simpl. f_equal. f_equal. f_equal.
    symmetry. apply repeat_cons. }
  unfold update. rewrite Ht. cbv zeta.
  destruct (leb (norm (vsub tgt (pos s))) (speed s)).
  - set (cul1 := log_data cul _ distance_traveled _ _) in *.
    assert (Hexit : kinds (log_data cul1 (name s) route_exit
                             (norm (vsub tgt (pos s)))
                             (vadd (pos s)
                                (vscale (vdiv (vsub tgt (pos s)) (norm (vsub tgt (pos s))))
                                   (pymin (speed s) (norm (vsub tgt (pos s)))))))
                    = kinds cul0 ++ lifetime_kinds (ns ++ [S k])).
    { unfold log_data, kinds in *. rewrite fmap_app, Hdt, lifetime_kinds_snoc.
      simpl. rewrite <- !app_assoc. simpl. done. }
    assert (Hall : Forall (λ m, 1 <= m) (ns ++ [S k])).
    { apply Forall_app. split; [done|]. constructor; [lia|constructor]. }
    assert (Hsum' : sum_list (ns ++ [S k]) = S n).
    { rewrite sum_list_with_app. simpl. lia. }
    destruct (bool_decide (S (target_index s) < length (path s))) eqn:Hmore.
    + apply bool_decide_eq_true in Hmore.
      destruct (lookup_lt_is_Some_2 (path s) (S (target_index s)) Hmore) as [t Hnext].
      rewrite Hnext. simpl. split; [done|]. left.
      exists (ns ++ [S k]), 0.
      split; [by eexists|]. split; [rewrite length_app; simpl; lia|].
      split; [done|]. split; [done|]. split; [lia|].
      unfold log_data, kinds in *. rewrite fmap_app, Hexit. simpl.
      by rewrite <- !app_assoc.
    + apply bool_decide_eq_false in Hmore. simpl. split; [done|]. right.
      exists (ns ++ [S k]).
      split; [done|]. split; [rewrite length_app; simpl; lia|].
      split; [done|]. split; [lia|]. done.
  - simpl. split; [done|]. left. exists ns, (S k).
    split; [by eexists|]. split; [done|]. split; [done|].
    split; [done|]. split; [lia|]. done.
Qed.

Lemma ticks_en_route cul0 n : ∀ m s cul,
  en_route cul0 m s cul ∨ finished cul0 m s cul →
  path (ticks n s cul).1 = path s ∧
  (en_route cul0 (m + n) (ticks n s cul).1 (ticks n s cul).2 ∨
   finished cul0 (m + n) (ticks n s cul).1 (ticks n s cul).2).
Proof.
  induction n as [|n IH]; intros m s cul Hst.
  - rewrite Nat.add_0_r. done.
  - cbn [ticks]. destruct Hst as [Hrun|Hfin].
    + destruct (update_en_route cul0 m s cul Hrun) as [Hp Hst'].
      destruct (update s cul) as [s1 c1]. simpl in Hp, Hst'.
      destruct (IH (S m) s1 c1 Hst') as [Hp' Hst''].
      rewrite Hp', Hp. split; [done|].
      replace (m + S n) with (S m + n) by lia. done.
    + destruct Hfin as (ns & Ht & Hlen & Hall & Hsum & Hk).
      rewrite update_idle by done. rewrite ticks_idle by done.
      split; [done|]. right. exists ns.
      split; [done|]. split; [done|]. split; [done|]. split; [lia|done].
Qed.

(** X29. For every arithmetic, binary64 included: if the ship is idle [n] ticks
    after a [set_path] with two points or more, the log has gained exactly
    [route_enter, distance_traveled (at least once), route_exit], once per
    leg of the path, and nothing else. *)
Lemma event_order_when_idle (s0 : Ship num) (p : list (vec num)) cul0 n :
  2 <= length p →
  let r := set_path s0 p cul0 in
  target (ticks n r.1 r.2).1 = None →
  ∃ ns, length ns = length p - 1 ∧ Forall (λ m, 1 <= m) ns ∧
        sum_list ns <= n ∧
        kinds (ticks n r.1 r.2).2 = kinds cul0 ++ lifetime_kinds ns.
Proof.
  intros Hlen r Hidle. subst r.
  destruct (set_path_en_route s0 p cul0 Hlen) as [Hrun Hpath].
  destruct (ticks_en_route cul0 n 0 _ _ (or_introl Hrun)) as [Hp [Hrun'|Hfin]].
  - destruct Hrun' as (ns & k & [t Ht] & _). by rewrite Ht in Hidle.
  - destruct Hfin as (ns & _ & Hl & Hall & Hsum & Hk).
    rewrite Hp, Hpath in Hl. exists ns.
    split; [lia|]. split; [done|]. split; [lia|done].
Qed.

End EventOrder.

Lemma update_idle_noop_witness :
  let s : Ship float := new_ship "Apollo" (0%float, 0%float) 5%float in
  target s = None ∧ update s [] = (s, []).
Proof.
  split; [reflexivity|].
  apply (update_idle_noop (new_ship "Apollo" (0%float, 0%float) 5%float) []).
  reflexivity.
Defined.

(** ** The zero-length leg *)

(** The ship of the scenario: at (0,0), path [(0,0),(0,0),(5,5)], speed 1,
    after [set_path]. *)
Definition zero_leg_ship : Ship float :=
  (set_path (new_ship "S" (0%float, 0%float) 1%float)
     [(0%float, 0%float); (0%float, 0%float); (5%float, 5%float)] []).1.

(** C1 (fails on the code). On a zero-length leg [update] divides the
    direction by the distance 0: numpy raises nothing, the quotient is NaN,
    and the position becomes (NaN, NaN) instead of staying (0,0).  The
    arrival check then passes (0 <= speed) and the target advances to
    (5,5), which a position that is NaN never reaches: after any number of
    further ticks the ship is where it was, with the same target. *)
Theorem zero_length_leg_moves_to_nan :
  target zero_leg_ship = Some (0%float, 0%float) ∧
  pos zero_leg_ship = (0%float, 0%float) ∧
  let s' := (update zero_leg_ship []).1 in
  PrimFloat.is_nan (pos s').1 = true ∧
  PrimFloat.is_nan (pos s').2 = true ∧
  target_index s' = 2 ∧
  target s' = Some (5%float, 5%float) ∧
  ∀ n cul, (ticks n s' cul).1 = s'.
Proof.
  repeat split; try reflexivity.
  intros n. induction n as [|n IH]; intros cul; [done|].
  cbn [ticks]. rewrite update_log.
  set (u := update (update zero_leg_ship []).1 []).
  change ((ticks n u.1 (cul ++ u.2)).1 = (update zero_leg_ship []).1).
  replace u.1 with (update zero_leg_ship []).1 by (vm_compute; reflexivity).
  apply IH.
Qed.

(** ** The driver: adjacency and per-ship routing *)

Section DriverFacts.
Context {num : Type} `{Arith num}.
Implicit Types (graph : gmap string (list string)) (a b x y : string).

(** [graph.get(node, [])]. *)
Definition neighbors graph (node : string) : list string :=
  default [] (graph !! node).

Lemma add_edge_new graph a b : b ∈ neighbors (add_edge graph a b) a.
Proof.
  unfold neighbors, add_edge. rewrite lookup_insert_eq. simpl.
  apply elem_of_app. right. apply list_elem_of_singleton. done.
Qed.

Lemma add_edge_keeps graph a b x y :
  y ∈ neighbors graph x → y ∈ neighbors (add_edge graph a b) x.
Proof.
  unfold neighbors, add_edge. intros Hy.
  destruct (decide (a = x)) as [->|Hne].
  - rewrite lookup_insert_eq. simpl. apply elem_of_app. by left.
  - by rewrite lookup_insert_ne.
Qed.

Lemma build_graph_keeps routes graph x y :
  y ∈ neighbors graph x →
  y ∈ neighbors
        (foldl (λ graph '(a, b), add_edge (add_edge graph a b) b a) graph routes) x.
Proof.
  revert graph. induction routes as [|[a b] routes IH]; intros graph Hy; [done|].
  simpl. apply IH. by do 2 apply add_edge_keeps.
Qed.

(** C8. The adjacency built by [main] is symmetric: for every edge
    [(a, b)] of the route list, [b] is among the neighbours of [a] and
    [a] is among the neighbours of [b]. *)
Theorem build_graph_symmetric (routes : list (string * string)) a b :
  (a, b) ∈ routes →
  b ∈ neighbors (build_graph routes) a ∧ a ∈ neighbors (build_graph routes) b.
Proof.
  unfold build_graph. generalize (∅ : gmap string (list string)).
  induction routes as [|[a' b'] routes IH]; intros graph Hin.
  - by apply elem_of_nil in Hin.
  - apply elem_of_cons in Hin as [Heq|Hin]; [|by apply IH].
    injection Heq as <- <-. simpl. split; apply build_graph_keeps.
    + apply add_edge_keeps, add_edge_new.
    + apply add_edge_new.
Qed.

(** The active ships and the log of a run, without the printed lines. *)
Definition active {A B C} (r : res (A * B * C)) : res (A * B) :=
  rbind r (λ '(ships, cul, _), Ret (ships, cul)).

Lemma setup_ships_out fuel planets graph (ds : list (ShipData num))
    ships cul out out' :
  active (setup_ships fuel planets graph ds ships cul out) =
  active (setup_ships fuel planets graph ds ships cul out').
Proof.
  revert ships cul out out'.
  induction ds as [|s ds IH]; intros ships cul out out'; [done|].
  cbn [setup_ships].
  destruct (getitem planets (sd_start s)) as [p| |]; cbn [rbind]; try done.
  destruct (fastest_path _ _ _ _ _ _) as [[[|x p']|]| |]; cbn [rbind]; try done;
    try apply IH.
  destruct (coords planets (x :: p')) as [cs| |]; cbn [rbind]; try done.
  destruct (set_path _ cs cul). apply IH.
Qed.

Lemma setup_ships_skip fuel planets graph (pre post : list (ShipData num))
    s ships cul out :
  is_Some (planets !! sd_start s) →
  fastest_path fuel graph (sd_start s) (sd_end s) planets (sd_speed s) = Ret None →
  active (setup_ships fuel planets graph (pre ++ s :: post) ships cul out) =
  active (setup_ships fuel planets graph (pre ++ post) ships cul out).
Proof.
  intros [p Hp] Hnone. revert ships cul out.
  induction pre as [|d pre IH]; intros ships cul out.
  - cbn [app setup_ships]. unfold getitem at 1. rewrite Hp. cbn [rbind speed new_ship].
    rewrite Hnone. cbn [rbind]. apply setup_ships_out.
  - cbn [app setup_ships].
    destruct (getitem planets (sd_start d)) as [q| |]; cbn [rbind]; try done.
    destruct (fastest_path fuel graph (sd_start d) _ _ _) as [[[|x p']|]| |];
      cbn [rbind]; try done; try apply IH.
    destruct (coords planets (x :: p')) as [cs| |]; cbn [rbind]; try done.
    destruct (set_path _ cs cul). apply IH.
Qed.

(** C7. A configured ship for which the router returns no path is left
    out: the active ships and the log of the whole run, set-up and any
    number of frames, are those of the run without that ship in the
    configuration.  So [set_path] is not called for it (no row with its
    [route_enter] is added), it is in no frame's list of ships to tick,
    and the ships before and after it are set up and ticked as they would
    be without it. *)
Theorem unroutable_ship_excluded fuel (planets : gmap string (vec num))
    routes (pre post : list (ShipData num)) s nframes :
  is_Some (planets !! sd_start s) →
  fastest_path fuel (build_graph routes) (sd_start s) (sd_end s) planets
    (sd_speed s) = Ret None →
  active (simulate fuel planets routes (pre ++ s :: post) nframes) =
  active (simulate fuel planets routes (pre ++ post) nframes).
Proof.
  intros Hp Hnone. unfold simulate.
  pose proof (setup_ships_skip fuel planets (build_graph routes) pre post s
                [] [] [] Hp Hnone) as Heq.
  destruct (setup_ships _ _ _ (pre ++ s :: post) _ _ _) as [[[sh c] o]| |];
    destruct (setup_ships _ _ _ (pre ++ post) _ _ _) as [[[sh' c'] o']| |];
    simpl in Heq; try discriminate; try done.
  injection Heq as <- <-. simpl. by destruct (frames nframes sh c).
Qed.

(** C10. With [start] equal to [end], [fastest_path] returns the
    one-element path [[start]] at the first pop, whatever the graph, the
    positions and the speed are (also when [start] has no edge, is in no
    dict, or the speed is 0). *)
Theorem fastest_path_start_is_end fuel graph start
    (positions : gmap string (vec num)) (ship_speed : num) :
  fastest_path (S fuel) graph start start positions ship_speed
  = Ret (Some [start]).
Proof.
  unfold fastest_path. cbn [search heappop].
  by rewrite bool_decide_eq_true_2.
Qed.

End DriverFacts.


(** ** The router: paths and the queue *)

Section RouterFacts.
Context {num : Type} `{Arith num}.
Implicit Types (graph : gmap string (list string)) (u v x : string)
  (p q : list string) (queue : list (entry num)).

(** [v] is adjacent to [u]. *)
Definition edge graph u v : Prop := v ∈ neighbors graph u.

(** Consecutive nodes of [p] are joined by edges. *)
Fixpoint edge_path graph p : Prop :=
  match p with
  | u :: ((v :: _) as p') => edge graph u v ∧ edge_path graph p'
  | _ => True
  end.

(** [p] is an edge-path from [start] to [end_]. *)
Definition connects graph (start end_ : string) p : Prop :=
  head p = Some start ∧ last p = Some end_ ∧ edge_path graph p.

Lemma edge_path_snoc graph p u v :
  edge_path graph p → last p = Some u → edge graph u v →
  edge_path graph (p ++ [v]).
Proof.
  induction p as [|a [|b p] IH]; intros Hp Hlast He; simpl in *.
  - done.
  - injection Hlast as ->. done.
  - destruct Hp as [Hab Hp]. split; [done|]. by apply IH.
Qed.

Lemma connects_snoc graph start p u v :
  connects graph start u p → edge graph u v →
  connects graph start v (p ++ [v]).
Proof.
  intros (Hh & Hl & Hp) He. repeat split.
  - destruct p; [done|]. done.
  - apply last_snoc.
  - by apply edge_path_snoc with u.
Qed.

Lemma heappop_None queue : heappop queue = None → queue = [].
Proof.
  destruct queue as [|e rest]; [done|]. simpl.
  destruct (heappop rest) as [[m r]|]; [|done].
  by destruct (entry_ltb m e).
Qed.

Lemma heappop_perm queue m r : heappop queue = Some (m, r) → queue ≡ₚ m :: r.
Proof.
  revert m r. induction queue as [|e rest IH]; intros m r Hpop; [done|].
  simpl in Hpop. destruct (heappop rest) as [[m' r']|] eqn:Hrest.
  - specialize (IH m' r' eq_refl).
    destruct (entry_ltb m' e); injection Hpop as <- <-.
    + rewrite IH. apply Permutation_swap.
    + done.
  - injection Hpop as <- <-. apply heappop_None in Hrest. by subst.
Qed.

(** What the neighbour loop leaves in the queue. *)
Lemma push_neighbors_spec (positions : gmap string (vec num)) (ship_speed t : num)
    u p nbrs : ∀ queue queue',
  push_neighbors positions ship_speed t u p nbrs queue = Ret queue' →
  length queue' = length queue + length nbrs ∧
  (∀ e, e ∈ queue → e ∈ queue') ∧
  (∀ v, v ∈ nbrs → ∃ w, travel_time positions ship_speed u v = Ret w ∧
                        (add t w, v, p ++ [v]) ∈ queue') ∧
  (∀ e, e ∈ queue' → e ∈ queue ∨
     ∃ v w, v ∈ nbrs ∧ travel_time positions ship_speed u v = Ret w ∧
            e = (add t w, v, p ++ [v])).
Proof.
  induction nbrs as [|v nbrs IH]; intros queue queue' Hpush; simpl in Hpush.
  - injection Hpush as <-. split; [simpl; lia|]. split; [done|]. split.
    + intros v Hv. by apply elem_of_nil in Hv.
    + intros e He. by left.
  - destruct (travel_time positions ship_speed u v) as [w| |] eqn:Hw;
      simpl in Hpush; try done.
    destruct (IH _ _ Hpush) as (Hlen & Hold & Hnew & Hall).
    split; [|split; [|split]].
    + rewrite Hlen. unfold heappush. simpl. lia.
    + intros e He. apply Hold. unfold heappush. by apply elem_of_cons; right.
    + intros v' Hv'. apply elem_of_cons in Hv' as [->|Hv'].
      * exists w. split; [done|]. apply Hold. unfold heappush.
        apply elem_of_cons. by left.
      * by apply Hnew.
    + intros e He. destruct (Hall e He) as [Hq|(v' & w' & Hv' & Hw' & ->)].
      * unfold heappush in Hq. apply elem_of_cons in Hq as [->|Hq].
        -- right. exists v, w. split; [by apply elem_of_cons; left|done].
        -- by left.
      * right. exists v', w'. split; [by apply elem_of_cons; right|done].
Qed.

(** A unit of fuel more does not change a result. *)
Lemma search_fuel_mono fuel graph end_ (positions : gmap string (vec num))
    (ship_speed : num) : ∀ queue visited r,
  search fuel graph end_ positions ship_speed queue visited = Ret r →
  search (S fuel) graph end_ positions ship_speed queue visited = Ret r.
Proof.
  induction fuel as [|fuel IH]; intros queue visited r Hr; [done|].
  cbn [search] in Hr |- *.
  destruct (heappop queue) as [[[[t u] p] queue']|]; [|done].
  destruct (bool_decide (u = end_)); [done|].
  destruct (match visited !! u with Some t0 => leb t0 t | None => false end).
  - by apply IH.
  - destruct (push_neighbors _ _ _ _ _ _ _) as [q''| |]; simpl in *; try done.
    by apply IH.
Qed.

Lemma search_fuel_le fuel fuel' graph end_ (positions : gmap string (vec num))
    (ship_speed : num) queue visited r :
  fuel <= fuel' →
  search fuel graph end_ positions ship_speed queue visited = Ret r →
  search fuel' graph end_ positions ship_speed queue visited = Ret r.
Proof.
  induction 1 as [|fuel' Hle IH]; [done|].
  intros Hr. by apply search_fuel_mono, IH.
Qed.

(** *** What a search returns, for every arithmetic *)

(** [x] is visited or queued. *)
Definition reached queue (visited : gmap string num) x : Prop :=
  is_Some (visited !! x) ∨ ∃ t p, (t, x, p) ∈ queue.

(** The part of the loop invariant that does not look at times. *)
Record Closed graph (start end_ : string) queue (visited : gmap string num)
    : Prop := {
  cl_entries : ∀ t u p, (t, u, p) ∈ queue → connects graph start u p;
  cl_start : reached queue visited start;
  cl_edges : ∀ u v,
    is_Some (visited !! u) → edge graph u v → reached queue visited v;
  cl_end : visited !! end_ = None
}.

Lemma closed_init graph start end_ t0 :
  Closed graph start end_ [(t0, start, [start])] ∅.
Proof.
  split.
  - intros t u p Hin. apply list_elem_of_singleton in Hin as [= -> -> ->]. done.
  - right. exists t0, [start]. by apply list_elem_of_singleton.
  - intros u v [d Hd]. by rewrite lookup_empty in Hd.
  - apply lookup_empty.
Qed.

Lemma closed_skip graph start end_ queue visited t u p r :
  Closed graph start end_ queue visited →
  heappop queue = Some ((t, u, p), r) → is_Some (visited !! u) →
  Closed graph start end_ r visited.
Proof.
  intros [He Hs Hed Hend] Hpop Hu.
  assert (Hkeep : ∀ x, reached queue visited x → reached r visited x).
  { intros x [Hx|(t' & p' & Hin)]; [by left|].
    rewrite (heappop_perm _ _ _ Hpop) in Hin.
    apply elem_of_cons in Hin as [[= -> -> ->]|Hin]; [by left|].
    right. by exists t', p'. }
  split; [|by apply Hkeep|by intros u' v Hu' Hv; apply Hkeep, (Hed u' v)|done].
  intros t' u' p' Hin. apply (He t'). rewrite (heappop_perm _ _ _ Hpop).
  by apply elem_of_cons; right.
Qed.

Lemma closed_expand graph start end_ (positions : gmap string (vec num))
    (ship_speed : num) queue visited t u p r queue'' :
  Closed graph start end_ queue visited →
  heappop queue = Some ((t, u, p), r) → u ≠ end_ →
  push_neighbors positions ship_speed t u p (neighbors graph u) r = Ret queue'' →
  Closed graph start end_ queue'' (<[u := t]> visited).
Proof.
  intros [He Hs Hed Hend] Hpop Hne Hpush.
  destruct (push_neighbors_spec _ _ _ _ _ _ _ _ Hpush) as (_ & Hold & Hnew & Hall).
  assert (Hpopped : (t, u, p) ∈ queue).
  { rewrite (heappop_perm _ _ _ Hpop). by apply elem_of_cons; left. }
  assert (Hkeep : ∀ x, reached queue visited x →
                       reached queue'' (<[u := t]> visited) x).
  { intros x [[d Hx]|(t' & p' & Hin)].
    - left. destruct (decide (u = x)) as [->|Hux].
      + rewrite lookup_insert_eq. by eexists.
      + rewrite lookup_insert_ne by done. by eexists.
    - rewrite (heappop_perm _ _ _ Hpop) in Hin.
      apply elem_of_cons in Hin as [[= -> -> ->]|Hin].
      + left. rewrite lookup_insert_eq. by eexists.
      + right. exists t', p'. by apply Hold. }
  split.
  - intros t' u' p' Hin.
    destruct (Hall _ Hin) as [Hr|(v & w & Hv & Hw & [= -> -> ->])].
    + apply (He t'). rewrite (heappop_perm _ _ _ Hpop). by apply elem_of_cons; right.
    + eapply connects_snoc; [by apply (He t u p)|done].
  - by apply Hkeep.
  - intros u' v Hu' Hv. destruct (decide (u = u')) as [<-|Hne'].
    + destruct (Hnew v Hv) as (w & _ & Hin). right. by eexists _, _.
    + rewrite lookup_insert_ne in Hu' by done. by apply Hkeep, (Hed u' v).
  - by rewrite lookup_insert_ne.
Qed.

Lemma closed_reaches graph start end_ visited :
  Closed graph start end_ [] visited →
  ∀ q x, is_Some (visited !! x) → head q = Some x → edge_path graph q →
  ∀ y, last q = Some y → is_Some (visited !! y).
Proof.
  intros [_ _ Hed _] q. induction q as [|a [|b q] IH]; intros x Hx Hh Hp y Hl.
  - done.
  - injection Hh as ->. by injection Hl as <-.
  - injection Hh as ->. destruct Hp as [Hab Hp].
    destruct (Hed x b Hx Hab) as [Hb|(t & p & Hin)];
      [|by apply elem_of_nil in Hin].
    by apply (IH b Hb).
Qed.

(** For every arithmetic, binary64 included: a path that [fastest_path]
    returns is an edge-path from [start] to [end_], and when it returns
    [None] no edge-path connects them. *)
Lemma search_closed fuel graph start end_ (positions : gmap string (vec num))
    (ship_speed : num) : ∀ queue visited r,
  Closed graph start end_ queue visited →
  search fuel graph end_ positions ship_speed queue visited = Ret r →
  match r with
  | Some p => connects graph start end_ p
  | None => ∀ q, ¬ connects graph start end_ q
  end.
Proof.
  induction fuel as [|fuel IH]; intros queue visited r HC Hr; [done|].
  cbn [search] in Hr.
  destruct (heappop queue) as [[[[t u] p] queue']|] eqn:Hpop.
  - destruct (bool_decide (u = end_)) eqn:Hend.
    + apply bool_decide_eq_true in Hend as ->. injection Hr as <-.
      apply (cl_entries _ _ _ _ _ HC t). rewrite (heappop_perm _ _ _ Hpop).
      by apply elem_of_cons; left.
    + apply bool_decide_eq_false in Hend.
      destruct (visited !! u) as [d|] eqn:Hu.
      * destruct (leb d t).
        -- apply (IH queue' visited); [|done].
           eapply closed_skip; eauto.
        -- destruct (push_neighbors _ _ _ _ _ _ _) as [q''| |] eqn:Hpush;
             cbn [rbind] in Hr; try done.
           apply (IH q'' (<[u := t]> visited)); [|done].
           eapply closed_expand; eauto.
      * destruct (push_neighbors _ _ _ _ _ _ _) as [q''| |] eqn:Hpush;
          cbn [rbind] in Hr; try done.
        apply (IH q'' (<[u := t]> visited)); [|done].
        eapply closed_expand; eauto.
  - injection Hr as <-. apply heappop_None in Hpop as ->.
    intros q (Hh & Hl & Hp).
    destruct (cl_start _ _ _ _ _ HC) as [Hs|(t & p & Hin)];
      [|by apply elem_of_nil in Hin].
    destruct (closed_reaches _ _ _ _ HC q start Hs Hh Hp end_ Hl) as [d Hd].
    by rewrite (cl_end _ _ _ _ _ HC) in Hd.
Qed.

(** X30. For every arithmetic, binary64 included: whatever fuel it is
    given, a path that [fastest_path] returns is an edge-path from [start]
    to [end_], and when it returns [None] no edge-path connects them. *)
Lemma fastest_path_sound fuel graph start end_
    (positions : gmap string (vec num)) (ship_speed : num) r :
  fastest_path fuel graph start end_ positions ship_speed = Ret r →
  match r with
  | Some p => connects graph start end_ p
  | None => ∀ q, ¬ connects graph start end_ q
  end.
Proof. apply search_closed, closed_init. Qed.

End RouterFacts.


(** * Concrete runs *)

(** ** Binary64 runs *)

Definition demo_planets : gmap string (vec float) :=
  <["A" := (0%float, 0%float)]> (<["B" := (10%float, 0%float)]>
  (<["C" := (10%float, 10%float)]> (<["D" := (100%float, 100%float)]> ∅))).

Definition demo_routes : list (string * string) := [("A", "B"); ("B", "C")].

Definition demo_ship (nm start end_ : string) (spd : float) : ShipData float :=
  mkShipData nm start end_ spd.

(** The scenario of the specification: A=(0,0), B=(10,0), C=(10,10), edges
    A-B and B-C, speed 5.  The route is [A, B, C]; the ship is at (5,0)
    after one tick, at (10,0) after two, at (10,5) after three, and idle at
    (10,10) after four. *)
Example demo_route :
  fastest_path 10 (build_graph demo_routes) "A" "C" demo_planets 5%float
  = Ret (Some ["A"; "B"; "C"]).
Proof. vm_compute. reflexivity. Qed.

Example demo_unreachable :
  fastest_path 10 (build_graph demo_routes) "A" "D" demo_planets 5%float
  = Ret None.
Proof. vm_compute. reflexivity. Qed.

Example demo_ticks :
  let r := set_path (new_ship "Apollo" (0%float, 0%float) 5%float)
             [(0%float, 0%float); (10%float, 0%float); (10%float, 10%float)] [] in
  pos (ticks 1 r.1 r.2).1 = (5%float, 0%float) ∧
  pos (ticks 2 r.1 r.2).1 = (10%float, 0%float) ∧
  pos (ticks 3 r.1 r.2).1 = (10%float, 5%float) ∧
  pos (ticks 4 r.1 r.2).1 = (10%float, 10%float) ∧
  target (ticks 3 r.1 r.2).1 = Some (10%float, 10%float) ∧
  target (ticks 4 r.1 r.2).1 = None ∧
  kinds (ticks 4 r.1 r.2).2 =
    [route_enter; distance_traveled; distance_traveled; route_exit;
     route_enter; distance_traveled; distance_traveled; route_exit].
Proof. vm_compute. repeat split; reflexivity. Qed.

Lemma build_graph_symmetric_witness :
  "Mars" ∈ neighbors
     (build_graph [("Earth", "Mars"); ("Earth", "Venus"); ("Venus", "Mars")])
     "Earth" ∧
  "Earth" ∈ neighbors
     (build_graph [("Earth", "Mars"); ("Earth", "Venus"); ("Venus", "Mars")])
     "Mars".
Proof.
  apply (build_graph_symmetric
           [("Earth", "Mars"); ("Earth", "Venus"); ("Venus", "Mars")]
           "Earth" "Mars").
  apply elem_of_cons. left. reflexivity.
Defined.

Lemma unroutable_ship_excluded_witness :
  active (simulate 10 demo_planets demo_routes
            ([demo_ship "s1" "A" "C" 5%float] ++
             demo_ship "s2" "A" "D" 5%float :: [demo_ship "s3" "C" "A" 20%float]) 3)
  = active (simulate 10 demo_planets demo_routes
              ([demo_ship "s1" "A" "C" 5%float] ++
               [demo_ship "s3" "C" "A" 20%float]) 3).
Proof.
  apply (unroutable_ship_excluded 10 demo_planets demo_routes
           [demo_ship "s1" "A" "C" 5%float] [demo_ship "s3" "C" "A" 20%float]
           (demo_ship "s2" "A" "D" 5%float) 3).
  - exists (0%float, 0%float). vm_compute. reflexivity.
  - vm_compute. reflexivity.
Defined.


(** * Further properties *)

(** ** The ship, for every arithmetic *)

Section ShipInvariants.
Context {num : Type} `{Arith num}.
Implicit Types (s : Ship num) (cul : Cul num).

Lemma update_fields s cul :
  name (update s cul).1 = name s ∧ speed (update s cul).1 = speed s ∧
  path (update s cul).1 = path s ∧
  (target_index (update s cul).1 = target_index s ∨
   target_index (update s cul).1 = S (target_index s)).
Proof.
  unfold update. repeat case_match; simpl; auto.
Qed.

(** X1. Ticks never change a ship's name, speed or path; the target index
    never decreases and grows by at most one per tick. *)
Theorem ticks_frame n : ∀ s cul,
  name (ticks n s cul).1 = name s ∧ speed (ticks n s cul).1 = speed s ∧
  path (ticks n s cul).1 = path s ∧
  target_index s <= target_index (ticks n s cul).1 <= target_index s + n.
Proof.
  induction n as [|n IH]; intros s cul.
  - simpl. repeat split; lia.
  - cbn [ticks]. destruct (update_fields s cul) as (Hn & Hs & Hp & Hi).
    destruct (update s cul) as [s1 c1]. simpl in Hn, Hs, Hp, Hi.
    destruct (IH s1 c1) as (Hn' & Hs' & Hp' & Hi').
    rewrite Hn', Hs', Hp', Hn, Hs, Hp. repeat split; try done; lia.
Qed.

Lemma update_target_lookup s cul :
  target s = path s !! target_index s →
  target (update s cul).1
  = path (update s cul).1 !! target_index (update s cul).1.
Proof.
  intros Hinv. unfold update.
  destruct (target s) as [tgt|] eqn:Ht; [|by simpl; rewrite Ht].
  cbv zeta. destruct (leb _ _); [|by simpl].
  destruct (bool_decide (S (target_index s) < length (path s))) eqn:Hlt.
  - apply bool_decide_eq_true in Hlt.
    destruct (lookup_lt_is_Some_2 (path s) _ Hlt) as [t Hnext].
    rewrite Hnext. simpl. done.
  - apply bool_decide_eq_false in Hlt. simpl. symmetry.
    apply lookup_ge_None. lia.
Qed.

(** X2. From construction on, through [set_path] and any number of ticks,
    a ship's target is the entry of its path at the target index: it is
    [None] exactly when the index is past the end of the path. *)
Theorem target_is_path_entry nm (start_pos : vec num) (spd : num)
    (p : list (vec num)) cul n :
  let r := set_path (new_ship nm start_pos spd) p cul in
  let s := (ticks n r.1 r.2).1 in
  target s = path s !! target_index s ∧
  (target s = None ↔ length (path s) <= target_index s).
Proof.
  intros r s.
  assert (Hinv : target s = path s !! target_index s).
  { subst s. assert (H0 : target r.1 = path r.1 !! target_index r.1).
    { subst r. rewrite set_path_cases. by destruct p as [|a [|b p]]. }
    generalize dependent (r.2). generalize dependent (r.1). clear r.
    induction n as [|n IH]; intros s0 H0 c0; [done|].
    cbn [ticks]. pose proof (update_target_lookup s0 c0 H0) as H1.
    destruct (update s0 c0) as [s1 c1]. by apply IH. }
  split; [done|]. rewrite Hinv. apply lookup_ge_None.
Qed.

Lemma update_appends s cul :
  ∃ evs, (update s cul).2 = cul ++ evs ∧
    Forall (λ e, ev_ship e = name s) evs ∧ length evs <= 3 ∧
    (is_Some (target s) → head (kinds evs) = Some distance_traveled).
Proof.
  unfold update, log_data.
  destruct (target s) as [tgt|]; cbv zeta.
  - destruct (leb _ _).
    + destruct (bool_decide (S (target_index s) < length (path s))) eqn:Hlt.
      * apply bool_decide_eq_true in Hlt.
        destruct (lookup_lt_is_Some_2 (path s) _ Hlt) as [t ->]. simpl.
        rewrite <- !app_assoc. simpl. eexists. split; [reflexivity|].
        split; [by repeat constructor|]. split; [simpl; lia|done].
      * simpl. rewrite <- !app_assoc. simpl. eexists. split; [reflexivity|].
        split; [by repeat constructor|]. split; [simpl; lia|done].
    + simpl. eexists. split; [reflexivity|].
      split; [by repeat constructor|]. split; [simpl; lia|done].
  - exists []. simpl. rewrite app_nil_r. split; [done|].
    split; [constructor|]. split; [lia|]. by intros [? [=]].
Qed.

(** X3. The log is append-only under ticks: [n] ticks of a ship leave the
    rows that were there and add at most [3 * n] rows, all under the
    ship's own name. *)
Theorem ticks_append_only n : ∀ s cul,
  ∃ evs, (ticks n s cul).2 = cul ++ evs ∧
    Forall (λ e, ev_ship e = name s) evs ∧ length evs <= 3 * n.
Proof.
  induction n as [|n IH]; intros s cul.
  - exists []. simpl. rewrite app_nil_r. repeat split; [constructor|lia].
  - cbn [ticks]. destruct (update_appends s cul) as (e1 & H1 & Hn1 & Hl1 & _).
    destruct (update_fields s cul) as (Hname & _).
    destruct (update s cul) as [s1 c1]. simpl in H1, Hname.
    destruct (IH s1 c1) as (e2 & H2 & Hn2 & Hl2).
    exists (e1 ++ e2). rewrite H2, H1, app_assoc. split; [done|]. split.
    + apply Forall_app. split; [done|]. by rewrite Hname in Hn2.
    + rewrite length_app. lia.
Qed.

End ShipInvariants.


(** ** The adjacency that [main] builds *)

Section GraphFacts.
Implicit Types (graph : gmap string (list string)) (a b x y : string)
  (routes : list (string * string)).

(** The loop of [main] from any graph. *)
Definition add_routes graph routes : gmap string (list string) :=
  foldl (λ graph '(a, b), add_edge (add_edge graph a b) b a) graph routes.

(** How often [x] is an endpoint in the route list (a route from [x] to
    [x] counts twice). *)
Definition degree routes x : nat :=
  sum_list_with (λ '(a, b),
    (if decide (a = x) then 1 else 0) + (if decide (b = x) then 1 else 0))
    routes.

Lemma add_edge_inv graph a b x y :
  y ∈ neighbors (add_edge graph a b) x →
  y ∈ neighbors graph x ∨ (x = a ∧ y = b).
Proof.
  unfold neighbors, add_edge. destruct (decide (a = x)) as [->|Hne].
  - rewrite lookup_insert_eq. simpl. intros Hy.
    apply elem_of_app in Hy as [Hy|Hy]; [by left|].
    apply list_elem_of_singleton in Hy. by right.
  - rewrite lookup_insert_ne by done. by left.
Qed.

Lemma add_edge_length graph a b x :
  length (neighbors (add_edge graph a b) x) =
  length (neighbors graph x) + (if decide (a = x) then 1 else 0).
Proof.
  unfold neighbors, add_edge. destruct (decide (a = x)) as [->|Hne].
  - rewrite lookup_insert_eq. simpl. by rewrite length_app.
  - rewrite lookup_insert_ne by done. lia.
Qed.

Lemma add_routes_inv routes : ∀ graph x y,
  y ∈ neighbors (add_routes graph routes) x →
  y ∈ neighbors graph x ∨ (x, y) ∈ routes ∨ (y, x) ∈ routes.
Proof.
  induction routes as [|[a b] routes IH]; intros graph x y Hy; [by left|].
  apply IH in Hy as [Hy|[Hy|Hy]].
  - apply add_edge_inv in Hy as [Hy|[-> ->]].
    + apply add_edge_inv in Hy as [Hy|[-> ->]]; [by left|].
      right. left. by apply elem_of_cons; left.
    + right. right. by apply elem_of_cons; left.
  - right. left. by apply elem_of_cons; right.
  - right. right. by apply elem_of_cons; right.
Qed.

Lemma add_routes_in routes : ∀ graph a b,
  (a, b) ∈ routes →
  b ∈ neighbors (add_routes graph routes) a ∧
  a ∈ neighbors (add_routes graph routes) b.
Proof.
  induction routes as [|[a' b'] routes IH]; intros graph a b Hin.
  - by apply elem_of_nil in Hin.
  - apply elem_of_cons in Hin as [[= <- <-]|Hin]; [|by apply IH].
    change (add_routes graph ((a, b) :: routes))
      with (foldl (λ graph '(a, b), add_edge (add_edge graph a b) b a)
              (add_edge (add_edge graph a b) b a) routes).
    split; apply build_graph_keeps.
    + apply add_edge_keeps, add_edge_new.
    + apply add_edge_new.
Qed.

Lemma add_routes_length routes : ∀ graph x,
  length (neighbors (add_routes graph routes) x) =
  length (neighbors graph x) + degree routes x.
Proof.
  induction routes as [|[a b] routes IH]; intros graph x; [simpl; lia|].
  change (add_routes graph ((a, b) :: routes))
    with (add_routes (add_edge (add_edge graph a b) b a) routes).
  rewrite IH, !add_edge_length. simpl. lia.
Qed.

(** X7. The adjacency holds nothing but the routes: [b] is a neighbour of
    [a] only if [(a, b)] or [(b, a)] is in the route list. *)
Theorem build_graph_only_routes routes a b :
  b ∈ neighbors (build_graph routes) a → (a, b) ∈ routes ∨ (b, a) ∈ routes.
Proof.
  intros Hb. apply (add_routes_inv routes ∅) in Hb as [Hb|Hb]; [|done].
  unfold neighbors in Hb. rewrite lookup_empty in Hb.
  by apply elem_of_nil in Hb.
Qed.

(** X8. Adjacency lists are not deduplicated: the number of entries of the
    list of [x] is the number of times [x] is an endpoint in the route
    list, a repeated route counted each time and a route from [x] to [x]
    twice. *)
Theorem build_graph_degree routes x :
  length (neighbors (build_graph routes) x) = degree routes x.
Proof.
  unfold build_graph. fold (add_routes ∅ routes).
  rewrite add_routes_length. unfold neighbors. by rewrite lookup_empty.
Qed.

(** X9. Adjacency is a symmetric relation: [b] is a neighbour of [a]
    exactly when [a] is a neighbour of [b]. *)
Theorem build_graph_edge_sym routes a b :
  edge (build_graph routes) a b ↔ edge (build_graph routes) b a.
Proof.
  unfold edge, build_graph. fold (add_routes ∅ routes).
  assert (Hempty : ∀ x y, y ∈ neighbors (∅ : gmap string (list string)) x → False).
  { intros x y Hy. unfold neighbors in Hy. rewrite lookup_empty in Hy.
    by apply elem_of_nil in Hy. }
  split; intros Hin; apply add_routes_inv in Hin as [Hin|[Hin|Hin]];
    try (by destruct (Hempty _ _ Hin));
    by apply (add_routes_in routes ∅) in Hin as [? ?].
Qed.

(** X10. If both endpoints of every route are keys of a dict (as
    [input_routes] checks against [planets]), then so are both ends of
    every adjacency: looking up a node that has an edge, or one of its
    neighbours, raises no [KeyError]. *)
Theorem build_graph_covered {V} (planets : gmap string V) routes :
  (∀ a b, (a, b) ∈ routes → is_Some (planets !! a) ∧ is_Some (planets !! b)) →
  ∀ u v, edge (build_graph routes) u v →
    is_Some (planets !! u) ∧ is_Some (planets !! v).
Proof.
  intros Hvalid u v Hin. unfold edge, build_graph in Hin.
  fold (add_routes ∅ routes) in Hin.
  apply add_routes_inv in Hin as [Hin|[Hin|Hin]].
  - unfold neighbors in Hin. rewrite lookup_empty in Hin.
    by apply elem_of_nil in Hin.
  - by apply Hvalid.
  - destruct (Hvalid _ _ Hin). done.
Qed.

End GraphFacts.

(** ** The router: missing keys, isolated nodes, positions of a path *)

Section RouterEdges.
Context {num : Type} `{Arith num}.
Implicit Types (graph : gmap string (list string)) (u v x : string)
  (p q : list string) (queue : list (entry num))
  (positions : gmap string (vec num)).

Lemma travel_time_keyerr positions (ship_speed : num) u v :
  positions !! v = None ∨ positions !! u = None →
  travel_time positions ship_speed u v = KeyErr.
Proof.
  unfold travel_time, getitem. intros [Hv|Hu].
  - by rewrite Hv.
  - rewrite Hu. by destruct (positions !! v).
Qed.

Lemma travel_time_ret positions (ship_speed : num) u v w :
  travel_time positions ship_speed u v = Ret w →
  is_Some (positions !! u) ∧ is_Some (positions !! v).
Proof.
  unfold travel_time, getitem.
  destruct (positions !! v); simpl; [|done].
  destruct (positions !! u); simpl; [|done]. intros _. by split; eexists.
Qed.

Lemma travel_time_no_timeout positions (ship_speed : num) u v :
  travel_time positions ship_speed u v ≠ Timeout.
Proof.
  unfold travel_time, getitem.
  destruct (positions !! v); simpl; [|done]. by destruct (positions !! u).
Qed.

Lemma push_neighbors_keyerr positions (ship_speed t : num) u p nbrs : ∀ queue v,
  v ∈ nbrs → travel_time positions ship_speed u v = KeyErr →
  push_neighbors positions ship_speed t u p nbrs queue = KeyErr.
Proof.
  induction nbrs as [|x nbrs IH]; intros queue v Hv Hk.
  - by apply elem_of_nil in Hv.
  - simpl. destruct (travel_time positions ship_speed u x) as [w| |] eqn:Hx;
      cbn [rbind].
    + apply elem_of_cons in Hv as [->|Hv]; [congruence|]. by apply (IH _ v).
    + done.
    + by destruct (travel_time_no_timeout positions ship_speed u x).
Qed.

(** X11. [fastest_path] raises [KeyError] at its first expansion when
    [start] is not the goal and has a neighbour such that the neighbour or
    [start] itself has no position. *)
Theorem fastest_path_missing_position fuel graph start end_ positions
    (ship_speed : num) v :
  start ≠ end_ → v ∈ neighbors graph start →
  positions !! v = None ∨ positions !! start = None →
  fastest_path (S fuel) graph start end_ positions ship_speed = KeyErr.
Proof.
  intros Hne Hv Hmiss. unfold fastest_path. cbn [search heappop].
  rewrite bool_decide_eq_false_2 by done. rewrite lookup_empty.
  change (default [] (graph !! start)) with (neighbors graph start).
  rewrite (push_neighbors_keyerr _ _ _ _ _ _ _ v Hv); [done|].
  by apply travel_time_keyerr.
Qed.

(** X12. When [start] is not the goal and has no neighbours,
    [fastest_path] returns [None] at the second pop, whatever the
    positions are. *)
Theorem fastest_path_isolated_start fuel graph start end_ positions
    (ship_speed : num) :
  start ≠ end_ → neighbors graph start = [] →
  fastest_path (S (S fuel)) graph start end_ positions ship_speed = Ret None.
Proof.
  intros Hne Hiso. unfold fastest_path. cbn [search heappop].
  rewrite bool_decide_eq_false_2 by done. rewrite lookup_empty.
  change (default [] (graph !! start)) with (neighbors graph start).
  rewrite Hiso. reflexivity.
Qed.

(** Every node of [p] after the first has a position. *)
Definition placed positions p : Prop :=
  Forall (λ x, is_Some (positions !! x)) (tail p).

Lemma placed_snoc positions p v :
  placed positions p → is_Some (positions !! v) → placed positions (p ++ [v]).
Proof.
  unfold placed. intros Hp Hv. destruct p as [|a p]; simpl; [constructor|].
  apply Forall_app. split; [done|]. by constructor.
Qed.

Lemma search_placed fuel graph end_ positions (ship_speed : num) :
  ∀ queue visited p,
  (∀ e, e ∈ queue → placed positions e.2) →
  search fuel graph end_ positions ship_speed queue visited = Ret (Some p) →
  placed positions p.
Proof.
  induction fuel as [|fuel IH]; intros queue visited p Hq Hr; [done|].
  cbn [search] in Hr.
  destruct (heappop queue) as [[[[t u] p0] queue']|] eqn:Hpop; [|done].
  pose proof (heappop_perm _ _ _ Hpop) as Hperm.
  assert (Hrest : ∀ e, e ∈ queue' → placed positions e.2).
  { intros e He. apply Hq. rewrite Hperm. by apply elem_of_cons; right. }
  assert (Hp0 : placed positions p0).
  { apply (Hq (t, u, p0)). rewrite Hperm. by apply elem_of_cons; left. }
  destruct (bool_decide (u = end_)).
  { by injection Hr as <-. }
  destruct (match visited !! u with Some t0 => leb t0 t | None => false end).
  { by apply (IH queue' visited). }
  destruct (push_neighbors _ _ _ _ _ _ _) as [q''| |] eqn:Hpush;
    cbn [rbind] in Hr; try done.
  apply (IH q'' (<[u := t]> visited)); [|done].
  destruct (push_neighbors_spec _ _ _ _ _ _ _ _ Hpush) as (_ & _ & _ & Hall).
  intros e He. destruct (Hall e He) as [Hold|(v & w & _ & Hw & ->)].
  - by apply Hrest.
  - simpl. apply placed_snoc; [done|].
    by destruct (travel_time_ret _ _ _ _ _ Hw).
Qed.

Lemma coords_placed positions p :
  Forall (λ x, is_Some (positions !! x)) p →
  ∃ cs, coords positions p = Ret cs ∧
        Forall2 (λ x c, positions !! x = Some c) p cs.
Proof.
  induction 1 as [|x p [c Hc] _ (cs & Hcs & Hall)].
  - exists []. split; [done|constructor].
  - exists (c :: cs). simpl. unfold getitem. rewrite Hc. simpl. rewrite Hcs.
    split; [done|]. by constructor.
Qed.

(** X13. The comprehension [[planets[p] for p in path]] of [main] cannot
    raise: when [start] has a position, every node of a path that
    [fastest_path] returns has one, and [coords] yields their positions
    in order. *)
Theorem fastest_path_coords fuel graph start end_ positions
    (ship_speed : num) p :
  is_Some (positions !! start) →
  fastest_path fuel graph start end_ positions ship_speed = Ret (Some p) →
  ∃ cs, coords positions p = Ret cs ∧
        Forall2 (λ x c, positions !! x = Some c) p cs ∧
        head cs = positions !! start.
Proof.
  intros Hs Hr. unfold fastest_path in Hr.
  pose proof (search_closed fuel graph start end_ positions ship_speed _ _ _
                (closed_init graph start end_ zero) Hr) as (Hh & _ & _).
  assert (Hpl : placed positions p).
  { eapply search_placed; [|exact Hr].
    intros e He. apply list_elem_of_singleton in He as ->. constructor. }
  destruct p as [|x p]; [done|]. injection Hh as ->.
  destruct (coords_placed positions (start :: p)) as (cs & Hcs & Hall).
  { constructor; [done|exact Hpl]. }
  exists cs. split; [done|]. split; [done|].
  inversion Hall as [|? c ? cs' Hc _]; subst. simpl. by rewrite Hc.
Qed.

End RouterEdges.


(** ** The driver: set-up and frames, for every arithmetic *)

Section DriverInvariants.
Context {num : Type} `{Arith num}.
Implicit Types (planets : gmap string (vec num))
  (graph : gmap string (list string)) (ds : list (ShipData num))
  (ships : list (Ship num)) (cul : Cul num) (out : list string).

(** One round of the [for s in ships_data] loop, by what it does. *)
Lemma setup_ships_step fuel planets graph s ds ships cul out r :
  setup_ships fuel planets graph (s :: ds) ships cul out = Ret r →
  ∃ start_pos, planets !! sd_start s = Some start_pos ∧
    ((∃ p cs, fastest_path fuel graph (sd_start s) (sd_end s) planets (sd_speed s)
                = Ret (Some p) ∧ p ≠ [] ∧ coords planets p = Ret cs ∧
        setup_ships fuel planets graph ds
          (ships ++ [(set_path (new_ship (sd_name s) start_pos (sd_speed s)) cs cul).1])
          (set_path (new_ship (sd_name s) start_pos (sd_speed s)) cs cul).2 out
        = Ret r) ∨
     (setup_ships fuel planets graph ds ships cul (out ++ [no_path_message s])
      = Ret r)).
Proof.
  cbn [setup_ships]. unfold getitem at 1.
  destruct (planets !! sd_start s) as [start_pos|]; cbn [rbind]; [|done].
  cbn [speed new_ship]. intros Hr. exists start_pos. split; [done|].
  destruct (fastest_path fuel graph (sd_start s) (sd_end s) planets (sd_speed s))
    as [[[|x p]|]| |]; cbn [rbind] in Hr; try done; try by right.
  destruct (coords planets (x :: p)) as [cs| |] eqn:Hcs; cbn [rbind] in Hr;
    try done.
  left. exists (x :: p), cs. split; [done|]. split; [done|]. split; [done|].
  by destruct (set_path _ cs cul).
Qed.

(** X15. Set-up drops no configuration silently: when it returns, every
    configured ship has either joined the active ships or produced one
    printed line. *)
Theorem setup_ships_accounts fuel planets graph ds : ∀ ships cul out r,
  setup_ships fuel planets graph ds ships cul out = Ret r →
  length r.1.1 + length r.2 = length ships + length out + length ds.
Proof.
  induction ds as [|s ds IH]; intros ships cul out r Hr.
  - injection Hr as <-. simpl. lia.
  - destruct (setup_ships_step _ _ _ _ _ _ _ _ _ Hr)
      as (start_pos & _ & [(p & cs & _ & _ & _ & Hnext)|Hnext]).
    + rewrite (IH _ _ _ _ Hnext), length_app. simpl. lia.
    + rewrite (IH _ _ _ _ Hnext), length_app. simpl. lia.
Qed.

(** X17. A ship whose end equals its start is routed along the
    one-element path, which [set_path] rejects: it joins the active ships
    as it was constructed, idle, and nothing is logged or printed for it. *)
Theorem setup_ships_start_is_end fuel planets graph s ds ships cul out start_pos :
  planets !! sd_start s = Some start_pos → sd_end s = sd_start s →
  setup_ships (S fuel) planets graph (s :: ds) ships cul out =
  setup_ships (S fuel) planets graph ds
    (ships ++ [new_ship (sd_name s) start_pos (sd_speed s)]) cul out.
Proof.
  intros Hs He. cbn [setup_ships]. unfold getitem at 1. rewrite Hs.
  cbn [rbind speed new_ship]. rewrite He.
  unfold fastest_path at 1. cbn [search heappop].
  rewrite bool_decide_eq_true_2 by done. cbn [rbind coords].
  unfold getitem at 1. rewrite Hs. cbn [rbind]. reflexivity.
Qed.

(** A ship as [main] hands it to the animation: either [set_path] left it
    as constructed, or it stands on the first point of its path and heads
    for the second. *)
Definition at_start (s : Ship num) : Prop :=
  (path s = [] ∧ target s = None) ∨
  (head (path s) = Some (pos s) ∧ 2 <= length (path s) ∧
   target_index s = 1 ∧ target s = path s !! 1).

Lemma set_path_at_start nm (start_pos : vec num) (spd : num) cs cul :
  head cs = Some start_pos →
  at_start (set_path (new_ship nm start_pos spd) cs cul).1.
Proof.
  intros Hh. rewrite set_path_cases. destruct cs as [|a [|b cs]].
  - by left.
  - by left.
  - right. simpl in *. repeat split; try done. lia.
Qed.

Lemma setup_ships_at_start_from fuel planets graph ds : ∀ ships cul out r,
  Forall at_start ships →
  setup_ships fuel planets graph ds ships cul out = Ret r →
  Forall at_start r.1.1.
Proof.
  induction ds as [|s ds IH]; intros ships cul out r Hall Hr.
  - by injection Hr as <-.
  - destruct (setup_ships_step _ _ _ _ _ _ _ _ _ Hr)
      as (start_pos & Hs & [(p & cs & Hp & Hne & Hcs & Hnext)|Hnext]);
      [|by eapply IH].
    eapply IH; [|exact Hnext]. apply Forall_app. split; [done|].
    constructor; [|constructor]. apply set_path_at_start.
    pose proof (search_closed _ _ _ _ _ _ _ _ _
                  (closed_init graph (sd_start s) (sd_end s) zero) Hp)
      as (Hh & _ & _).
    destruct p as [|x p]; [done|]. injection Hh as ->.
    simpl in Hcs. unfold getitem in Hcs. rewrite Hs in Hcs. cbn [rbind] in Hcs.
    destruct (coords planets p) as [cs'| |]; cbn [rbind] in Hcs; try done.
    by injection Hcs as <-.
Qed.

(** X18. Every active ship that [main] sets up either is idle with no path
    or stands on the first point of its path, which has two points or
    more, with target index 1 and the second point as target. *)
Theorem setup_ships_at_start fuel planets graph ds ships cul out :
  setup_ships fuel planets graph ds [] [] [] = Ret (ships, cul, out) →
  Forall at_start ships.
Proof.
  intros Hr.
  apply (setup_ships_at_start_from fuel planets graph ds [] [] [] _
           (Forall_nil_2 _) Hr).
Qed.

Lemma update_ship_log (s : Ship num) cul : (update s cul).1 = (update s []).1.
Proof. by rewrite update_log. Qed.

Lemma ticks_ship_log n (s : Ship num) cul : (ticks n s cul).1 = (ticks n s []).1.
Proof. by rewrite ticks_log. Qed.

Lemma animate_spec ships : ∀ cul,
  animate ships cul =
    ((λ s : Ship num, (update s []).1) <$> ships,
     cul ++ concat ((λ s : Ship num, (update s []).2) <$> ships),
     forallb (λ s : Ship num, bool_decide (target (update s []).1 = None)) ships).
Proof.
  induction ships as [|s ships IH]; intros cul.
  - simpl. by rewrite app_nil_r.
  - cbn [animate]. rewrite (update_log s cul).
    rewrite IH. simpl. rewrite <- app_assoc.
    by destruct (target (update s []).1).
Qed.

(** X19. One frame ticks every active ship once and logs in ship order:
    the ships after the frame are the ships ticked one by one, and the log
    is the old log followed by each ship's rows, ship after ship. *)
Theorem animate_in_order ships cul :
  (animate ships cul).1.1 = (λ s : Ship num, (update s []).1) <$> ships ∧
  (animate ships cul).1.2 = cul ++ concat ((λ s : Ship num, (update s []).2) <$> ships).
Proof. by rewrite animate_spec. Qed.

(** X20. The [all_done] flag of a frame is set exactly when every ship is
    idle after the frame. *)
Theorem animate_all_done ships cul :
  (animate ships cul).2 = true ↔
  Forall (λ s, target s = None) (animate ships cul).1.1.
Proof.
  rewrite animate_spec. simpl. rewrite forallb_forall, Forall_fmap, Forall_forall.
  split; intros Hall s Hs.
  - apply list_elem_of_In in Hs. specialize (Hall s Hs).
    by apply bool_decide_eq_true in Hall.
  - apply list_elem_of_In in Hs. apply bool_decide_eq_true. by apply Hall.
Qed.

Lemma frames_ticks n : ∀ ships cul,
  (frames n ships cul).1 = (λ s : Ship num, (ticks n s []).1) <$> ships.
Proof.
  induction n as [|n IH]; intros ships cul.
  - simpl. by rewrite list_fmap_id.
  - cbn [frames]. rewrite animate_spec. rewrite IH, <- list_fmap_compose.
    apply list_fmap_ext. intros i s _. simpl.
    rewrite (update_log s []). simpl.
    destruct (update s []) as [s1 c1]. simpl. symmetry. apply ticks_ship_log.
Qed.

(** X21. Ships do not influence each other: [n] frames keep the number and
    order of the ships, and bring the ship at each place where [n] ticks
    of it alone would have brought it, whatever the other ships and the
    log are. *)
Theorem frames_independent n ships cul :
  length (frames n ships cul).1 = length ships ∧
  ∀ i s, ships !! i = Some s →
    (frames n ships cul).1 !! i = Some (ticks n s []).1.
Proof.
  rewrite frames_ticks. split; [apply length_fmap|].
  intros i s Hs. by rewrite list_lookup_fmap, Hs.
Qed.

(** X22. Once every ship is idle, further frames change neither the ships
    nor the log. *)
Theorem frames_idle n : ∀ ships cul,
  Forall (λ s, target s = None) ships → frames n ships cul = (ships, cul).
Proof.
  induction n as [|n IH]; intros ships cul Hidle; [done|].
  cbn [frames]. rewrite animate_spec.
  assert (Hs : (λ s : Ship num, (update s []).1) <$> ships = ships).
  { rewrite <- (list_fmap_id ships) at 2. apply Forall_fmap_ext_1.
    eapply Forall_impl; [exact Hidle|]. intros s Hs. simpl.
    by rewrite update_idle. }
  assert (Hc : concat ((λ s : Ship num, (update s []).2) <$> ships) = []).
  { clear Hs. induction Hidle as [|s ships Hs _ IHs]; [done|].
    simpl. rewrite update_idle by done. simpl. exact IHs. }
  rewrite Hs, Hc, app_nil_r. by apply IH.
Qed.

End DriverInvariants.

(** ** Reading the routes from the console *)

(** The console: [stdin] is the list of lines still to be read, without
    their newlines; [input] on an empty list raises [EOFError], modelled
    as [None].  What is written (the header, the prompts and the
    complaints) is the list [out], in order. *)

(** An ASCII capital folded to its small letter; other bytes unchanged. *)
Definition lower_ascii (c : Ascii.ascii) : Ascii.ascii :=
  let n := Ascii.nat_of_ascii c in
  if (65 <=? n)%nat && (n <=? 90)%nat then Ascii.ascii_of_nat (n + 32) else c.

Fixpoint lower (s : string) : string :=
  match s with
  | EmptyString => EmptyString
  | String c s' => String (lower_ascii c) (lower s')
  end.

(** [s.lower() == 'done'].  [lower] folds ASCII letters only, which is what
    decides the comparison with this word. *)
Definition is_done (s : string) : bool := String.eqb (lower s) "done".

Section Console.
Context {V : Type}.
Implicit Types (planets : gmap string V) (stdin out : list string)
  (routes : list (string * string)).

(** The [while True] loop of [input_routes]. *)
Fixpoint input_routes_loop planets stdin routes out
    : option (list (string * string) * list string * list string) :=
  match stdin with
  | [] => None
  | a :: stdin1 =>
      let out1 := out ++ ["Start planet: "] in
      if is_done a then Some (routes, stdin1, out1)
      else
        match stdin1 with
        | [] => None
        | b :: stdin2 =>
            let out2 := out1 ++ ["End planet: "] in
            if is_done b then Some (routes, stdin2, out2)
            else if bool_decide (is_Some (planets !! a)) &&
                    bool_decide (is_Some (planets !! b))
            then input_routes_loop planets stdin2 (routes ++ [(a, b)]) out2
            else input_routes_loop planets stdin2 routes
                   (out2 ++ ["Invalid planets. Try again."])
        end
  end.

(** [input_routes]: the routes, the lines left unread and the output. *)
Definition input_routes planets stdin
    : option (list (string * string) * list string * list string) :=
  input_routes_loop planets stdin []
    ["Enter routes (type 'done' when finished):"].

(** A route as [input_routes] accepts it. *)
Definition valid_route planets (r : string * string) : Prop :=
  is_Some (planets !! r.1) ∧ is_Some (planets !! r.2) ∧
  is_done r.1 = false ∧ is_done r.2 = false.

Lemma input_routes_loop_valid planets stdin : ∀ routes out res,
  Forall (valid_route planets) routes →
  input_routes_loop planets stdin routes out = Some res →
  Forall (valid_route planets) res.1.1.
Proof.
  induction stdin as [stdin IH] using (induction_ltof1 _ length).
  unfold ltof in IH. intros routes out res Hall Hr.
  destruct stdin as [|a [|b stdin2]]; simpl in Hr; [done| |].
  - destruct (is_done a); [|done]. by injection Hr as <-.
  - destruct (is_done a) eqn:Ha; [by injection Hr as <-|].
    destruct (is_done b) eqn:Hb; [by injection Hr as <-|].
    destruct (bool_decide (is_Some (planets !! a))) eqn:Hpa;
      destruct (bool_decide (is_Some (planets !! b))) eqn:Hpb; simpl in Hr;
      try (apply (IH stdin2) in Hr; [done|simpl; lia|done]).
    apply (IH stdin2) in Hr; [done|simpl; lia|].
    apply Forall_app. split; [done|]. constructor; [|constructor].
    apply bool_decide_eq_true in Hpa, Hpb. by repeat split.
Qed.

(** X23. Every route that [input_routes] returns has both endpoints among
    the keys of [planets], and neither endpoint is a spelling of 'done'. *)
Theorem input_routes_valid planets stdin routes rest out :
  input_routes planets stdin = Some (routes, rest, out) →
  Forall (valid_route planets) routes.
Proof.
  intros Hr.
  apply (input_routes_loop_valid planets stdin [] _ _ (Forall_nil_2 _) Hr).
Qed.

(** X24. The adjacency that [main] builds from the routes read by
    [input_routes] has known planets only: both ends of every adjacency
    are keys of [planets]. *)
Theorem input_routes_graph_covered planets stdin routes rest out :
  input_routes planets stdin = Some (routes, rest, out) →
  ∀ u v, edge (build_graph routes) u v →
    is_Some (planets !! u) ∧ is_Some (planets !! v).
Proof.
  intros Hr u v Hin.
  pose proof (input_routes_loop_valid planets stdin [] _ _ (Forall_nil_2 _) Hr)
    as Hall.
  simpl in Hall. rewrite Forall_forall in Hall.
  unfold edge, build_graph in Hin. fold (add_routes ∅ routes) in Hin.
  apply add_routes_inv in Hin as [Hin|[Hin|Hin]].
  - unfold neighbors in Hin. rewrite lookup_empty in Hin.
    by apply elem_of_nil in Hin.
  - apply Hall in Hin. destruct Hin as (? & ? & _). done.
  - apply Hall in Hin. destruct Hin as (? & ? & _). done.
Qed.

Lemma input_routes_loop_eof planets stdin : ∀ routes out,
  Forall (λ line, is_done line = false) stdin →
  input_routes_loop planets stdin routes out = None.
Proof.
  induction stdin as [stdin IH] using (induction_ltof1 _ length).
  unfold ltof in IH. intros routes out Hall.
  destruct stdin as [|a [|b stdin2]]; simpl; [done| |].
  - apply Forall_cons in Hall as [-> _]. done.
  - apply Forall_cons in Hall as [-> Hall].
    apply Forall_cons in Hall as [-> Hall].
    destruct (_ && _); apply IH; simpl; (lia || done).
Qed.

(** X25. Without a line that spells 'done', [input_routes] ends in
    [EOFError], whatever routes were entered before the input ran out. *)
Theorem input_routes_eof planets stdin :
  Forall (λ line, is_done line = false) stdin →
  input_routes planets stdin = None.
Proof. apply input_routes_loop_eof. Qed.

Lemma input_routes_loop_consumes planets stdin : ∀ routes out res,
  input_routes_loop planets stdin routes out = Some res →
  ∃ read line, stdin = read ++ line :: res.1.2 ∧ is_done line = true ∧
    Forall (λ l, is_done l = false) read.
Proof.
  induction stdin as [stdin IH] using (induction_ltof1 _ length).
  unfold ltof in IH. intros routes out res Hr.
  destruct stdin as [|a [|b stdin2]]; simpl in Hr; [done| |].
  - destruct (is_done a) eqn:Ha; [|done]. injection Hr as <-.
    by exists [], a.
  - destruct (is_done a) eqn:Ha; [injection Hr as <-; by exists [], a|].
    destruct (is_done b) eqn:Hb.
    { injection Hr as <-. exists [a], b. repeat split; try done.
      by constructor. }
    assert (Hnext : ∃ routes' out',
      input_routes_loop planets stdin2 routes' out' = Some res).
    { destruct (_ && _); eauto. }
    destruct Hnext as (routes' & out' & Hnext).
    apply IH in Hnext as (read & line & -> & Hline & Hread); [|simpl; lia].
    exists (a :: b :: read), line. repeat split; try done.
    by repeat constructor.
Qed.

(** X26. [input_routes] stops at the first line that spells 'done' and
    reads nothing after it: the input is the lines it read, none of them
    'done', then that line, then the lines it leaves unread. *)
Theorem input_routes_consumes planets stdin routes rest out :
  input_routes planets stdin = Some (routes, rest, out) →
  ∃ read line, stdin = read ++ line :: rest ∧ is_done line = true ∧
    Forall (λ l, is_done l = false) read.
Proof.
  intros Hr.
  apply (input_routes_loop_consumes planets stdin [] _ _ Hr).
Qed.

End Console.


(** ** Concrete runs for the further properties *)

Definition demo_ships : list (ShipData float) :=
  [demo_ship "s1" "A" "C" 5%float; demo_ship "s2" "A" "D" 5%float;
   demo_ship "s3" "C" "A" 20%float].

Lemma build_graph_only_routes_witness :
  ("A", "B") ∈ demo_routes ∨ ("B", "A") ∈ demo_routes.
Proof.
  apply (build_graph_only_routes demo_routes "A" "B").
  vm_compute. apply elem_of_cons. left. reflexivity.
Defined.

Lemma build_graph_covered_witness :
  is_Some (demo_planets !! "B") ∧ is_Some (demo_planets !! "C").
Proof.
  apply (build_graph_covered demo_planets demo_routes).
  - intros a b Hin. unfold demo_routes in Hin.
    repeat (apply elem_of_cons in Hin as [[= -> ->]|Hin]);
      [split; eexists; vm_compute; reflexivity..|].
    by apply elem_of_nil in Hin.
  - vm_compute. apply elem_of_cons. right. apply elem_of_cons. left. reflexivity.
Defined.

Lemma fastest_path_missing_position_witness :
  fastest_path 1 (build_graph [("A", "B")]) "A" "C"
    (<["A" := (0%float, 0%float)]> ∅ : gmap string (vec float)) 5%float
  = KeyErr.
Proof.
  apply (fastest_path_missing_position 0 (build_graph [("A", "B")]) "A" "C"
           (<["A" := (0%float, 0%float)]> ∅) 5%float "B").
  - discriminate.
  - vm_compute. apply elem_of_cons. left. reflexivity.
  - left. vm_compute. reflexivity.
Defined.

Lemma fastest_path_isolated_start_witness :
  fastest_path 2 (build_graph demo_routes) "D" "A" demo_planets 5%float
  = Ret None.
Proof.
  apply (fastest_path_isolated_start 0 (build_graph demo_routes) "D" "A"
           demo_planets 5%float).
  - discriminate.
  - vm_compute. reflexivity.
Defined.

Lemma fastest_path_coords_witness :
  ∃ cs, coords demo_planets ["A"; "B"; "C"] = Ret cs ∧
        Forall2 (λ x c, demo_planets !! x = Some c) ["A"; "B"; "C"] cs ∧
        head cs = demo_planets !! "A".
Proof.
  apply (fastest_path_coords 10 (build_graph demo_routes) "A" "C" demo_planets
           5%float ["A"; "B"; "C"]).
  - eexists. vm_compute. reflexivity.
  - vm_compute. reflexivity.
Defined.

Lemma setup_ships_accounts_witness :
  match setup_ships 10 demo_planets (build_graph demo_routes) demo_ships [] [] []
  with
  | Ret r => length r.1.1 + length r.2 = 3
  | _ => False
  end.
Proof.
  destruct (setup_ships 10 demo_planets (build_graph demo_routes) demo_ships
              [] [] []) as [r| |] eqn:Hr.
  - apply (setup_ships_accounts 10 demo_planets (build_graph demo_routes)
             demo_ships [] [] [] r Hr).
  - vm_compute in Hr. discriminate.
  - vm_compute in Hr. discriminate.
Defined.

Lemma setup_ships_start_is_end_witness :
  setup_ships 1 demo_planets (build_graph demo_routes)
    [demo_ship "home" "A" "A" 5%float] [] [] []
  = setup_ships 1 demo_planets (build_graph demo_routes) []
      ([] ++ [new_ship "home" (0%float, 0%float) 5%float]) [] [].
Proof.
  apply (setup_ships_start_is_end 0 demo_planets (build_graph demo_routes)
           (demo_ship "home" "A" "A" 5%float) [] [] [] [] (0%float, 0%float)).
  - vm_compute. reflexivity.
  - reflexivity.
Defined.

Lemma setup_ships_at_start_witness :
  match setup_ships 10 demo_planets (build_graph demo_routes) demo_ships [] [] []
  with
  | Ret r => Forall at_start r.1.1
  | _ => False
  end.
Proof.
  destruct (setup_ships 10 demo_planets (build_graph demo_routes) demo_ships
              [] [] []) as [[[ships cul] out]| |] eqn:Hr.
  - apply (setup_ships_at_start 10 demo_planets (build_graph demo_routes)
             demo_ships ships cul out Hr).
  - vm_compute in Hr. discriminate.
  - vm_compute in Hr. discriminate.
Defined.

Lemma frames_idle_witness :
  frames 5 [new_ship "a" (0%float, 0%float) 1%float;
            new_ship "b" (1%float, 1%float) 2%float] []
  = ([new_ship "a" (0%float, 0%float) 1%float;
      new_ship "b" (1%float, 1%float) 2%float], []).
Proof.
  apply (frames_idle 5). repeat constructor.
Defined.

Definition two_planets : gmap string unit := <["Earth" := ()]> (<["Mars" := ()]> ∅).

Definition typed_lines : list string :=
  ["Earth"; "Mars"; "Earth"; "Pluto"; "DONE"; "left over"].

Lemma input_routes_valid_witness :
  Forall (valid_route two_planets) [("Earth", "Mars")].
Proof.
  apply (input_routes_valid two_planets typed_lines [("Earth", "Mars")]
           ["left over"]
           ["Enter routes (type 'done' when finished):"; "Start planet: ";
            "End planet: "; "Start planet: "; "End planet: ";
            "Invalid planets. Try again."; "Start planet: "]).
  vm_compute. reflexivity.
Defined.

Lemma input_routes_graph_covered_witness :
  is_Some (two_planets !! "Earth") ∧ is_Some (two_planets !! "Mars").
Proof.
  apply (input_routes_graph_covered two_planets typed_lines [("Earth", "Mars")]
           ["left over"]
           ["Enter routes (type 'done' when finished):"; "Start planet: ";
            "End planet: "; "Start planet: "; "End planet: ";
            "Invalid planets. Try again."; "Start planet: "]).
  - vm_compute. reflexivity.
  - vm_compute. apply elem_of_cons. left. reflexivity.
Defined.

Lemma input_routes_eof_witness :
  input_routes two_planets ["Earth"; "Mars"; "Earth"] = None.
Proof.
  apply (input_routes_eof two_planets ["Earth"; "Mars"; "Earth"]).
  repeat constructor.
Defined.

Lemma input_routes_consumes_witness :
  ∃ read line, typed_lines = read ++ line :: ["left over"] ∧
    is_done line = true ∧ Forall (λ l, is_done l = false) read.
Proof.
  apply (input_routes_consumes two_planets typed_lines [("Earth", "Mars")]
           ["left over"]
           ["Enter routes (type 'done' when finished):"; "Start planet: ";
            "End planet: "; "Start planet: "; "End planet: ";
            "Invalid planets. Try again."; "Start planet: "]).
  vm_compute. reflexivity.
Defined.

Lemma event_order_when_idle_witness :
  let p := [(0%float, 0%float); (10%float, 0%float); (10%float, 10%float)] in
  let r := set_path (new_ship "Apollo" (0%float, 0%float) 5%float) p [] in
  ∃ ns, length ns = 2 ∧ Forall (λ m, 1 <= m) ns ∧ sum_list ns <= 4 ∧
        kinds (ticks 4 r.1 r.2).2 = lifetime_kinds ns.
Proof.
  apply (event_order_when_idle (new_ship "Apollo" (0%float, 0%float) 5%float)
           [(0%float, 0%float); (10%float, 0%float); (10%float, 10%float)] [] 4).
  - simpl. lia.
  - vm_compute. reflexivity.
Defined.

Lemma fastest_path_sound_witness :
  connects (build_graph demo_routes) "A" "C" ["A"; "B"; "C"].
Proof.
  apply (fastest_path_sound 10 (build_graph demo_routes) "A" "C" demo_planets
           5%float (Some ["A"; "B"; "C"])).
  vm_compute. reflexivity.
Defined.

(** * The search when times are ordered *)

Section TimeLaws.
Context {num : Type} `{Arith num}.

(** What optimality and termination of the search need of the numbers
    that occur as times.  [ok] marks the admissible times; in binary64
    these are the times that are neither NaN nor negative, a NaN being
    comparable with nothing. *)
Record TimeOrder (ok : num → Prop) : Prop := {
  ok_zero : ok zero;
  ok_add : ∀ a w, ok a → ok w → ok (add a w);
  leb_total : ∀ a b, ok a → ok b → leb a b = true ∨ leb b a = true;
  leb_trans : ∀ a b c, ok a → ok b → ok c →
    leb a b = true → leb b c = true → leb a c = true;
  ltb_leb : ∀ a b, ok a → ok b → ltb a b = true → leb a b = true;
  nltb_leb : ∀ a b, ok a → ok b → ltb a b = false → leb b a = true;
  eqb_leb : ∀ a b, ok a → ok b → eqb a b = true →
    leb a b = true ∧ leb b a = true;
  add_le : ∀ a w, ok a → ok w → leb a (add a w) = true;
  add_mono : ∀ a b w, ok a → ok b → ok w →
    leb a b = true → leb (add a w) (add b w) = true
}.

(** The time of a path as the search adds it up: from [acc], one travel
    time after the other in path order. *)
Fixpoint time_from (positions : gmap string (vec num)) (ship_speed : num)
    (acc : num) (p : list string) : res num :=
  match p with
  | u :: ((v :: _) as p') =>
      rbind (travel_time positions ship_speed u v) (λ w,
      time_from positions ship_speed (add acc w) p')
  | _ => Ret acc
  end.

(** The total time of a path: its per-edge times (distance divided by
    speed) summed from 0 in path order. *)
Definition path_time (positions : gmap string (vec num)) (ship_speed : num)
    (p : list string) : res num :=
  time_from positions ship_speed zero p.

(** Every node that has an edge has a position. *)
Definition positions_cover (graph : gmap string (list string))
    (positions : gmap string (vec num)) : Prop :=
  ∀ u v, edge graph u v → is_Some (positions !! u) ∧ is_Some (positions !! v).

(** The adjacency lists of the nodes that are not visited yet, counted. *)
Definition pending_of (visited : gmap string num)
    (g : list (string * list string)) : nat :=
  sum_list ((λ '(u, vs), match visited !! u with
                         | Some _ => 0
                         | None => length vs
                         end) <$> g).

Definition pending (graph : gmap string (list string))
    (visited : gmap string num) : nat :=
  pending_of visited (map_to_list graph).

(** The number of adjacency entries of [graph]. *)
Definition adjacency_entries (graph : gmap string (list string)) : nat :=
  sum_list ((λ '(u, vs), length vs) <$> map_to_list graph).

(** Fuel that is enough for a search in [graph] when times are ordered:
    two more than the number of its adjacency entries. *)
Definition fuel_bound (graph : gmap string (list string)) : nat :=
  2 + adjacency_entries graph.

Lemma time_from_step positions (ship_speed acc : num) u v p :
  time_from positions ship_speed acc (u :: v :: p) =
    rbind (travel_time positions ship_speed u v) (λ w,
    time_from positions ship_speed (add acc w) (v :: p)).
Proof. reflexivity. Qed.

(** The time the search carries along a path is the path's time. *)
Lemma time_from_snoc positions (ship_speed : num) p : ∀ acc u v t w,
  time_from positions ship_speed acc p = Ret t → last p = Some u →
  travel_time positions ship_speed u v = Ret w →
  time_from positions ship_speed acc (p ++ [v]) = Ret (add t w).
Proof.
  induction p as [|a [|b p] IH]; intros acc u v t w Ht Hlast Hw.
  - done.
  - injection Hlast as ->. injection Ht as <-. simpl. by rewrite Hw.
  - change ((a :: b :: p) ++ [v]) with (a :: b :: (p ++ [v])).
    rewrite time_from_step in Ht |- *.
    destruct (travel_time positions ship_speed a b) as [wab| |];
      cbn [rbind] in Ht |- *; try done.
    change (b :: p ++ [v]) with ((b :: p) ++ [v]).
    by apply (IH _ u).
Qed.

Lemma pending_of_cons (visited : gmap string num) x xs g :
  pending_of visited ((x, xs) :: g) =
    match visited !! x with Some _ => 0 | None => length xs end
    + pending_of visited g.
Proof. reflexivity. Qed.

Lemma pending_of_fresh (visited : gmap string num) u t g :
  u ∉ g.*1 → pending_of (<[u := t]> visited) g = pending_of visited g.
Proof.
  induction g as [|[x vs] g IH]; intros Hu; [done|].
  rewrite fmap_cons in Hu. apply not_elem_of_cons in Hu as [Hne Hu].
  rewrite !pending_of_cons. rewrite lookup_insert_ne by done. by rewrite IH.
Qed.

Lemma pending_of_insert (visited : gmap string num) u t vs g :
  NoDup g.*1 → (u, vs) ∈ g → visited !! u = None →
  pending_of (<[u := t]> visited) g + length vs = pending_of visited g.
Proof.
  induction g as [|[x xs] g IH]; intros Hnd Hin Hu.
  - by apply elem_of_nil in Hin.
  - rewrite fmap_cons in Hnd. apply NoDup_cons in Hnd as [Hx Hnd].
    rewrite !pending_of_cons.
    apply elem_of_cons in Hin as [[= <- <-]|Hin].
    + rewrite lookup_insert_eq, Hu.
      rewrite (pending_of_fresh visited u t g Hx). lia.
    + assert (Hne : u ≠ x).
      { intros ->. apply Hx. apply list_elem_of_fmap. by exists (x, vs). }
      rewrite lookup_insert_ne by done.
      specialize (IH Hnd Hin Hu). lia.
Qed.

Lemma pending_insert graph (visited : gmap string num) u t :
  visited !! u = None →
  pending graph (<[u := t]> visited) + length (neighbors graph u)
  = pending graph visited.
Proof.
  intros Hu. unfold pending, neighbors.
  destruct (graph !! u) as [vs|] eqn:Hg; simpl.
  - apply pending_of_insert; [apply NoDup_fst_map_to_list| |done].
    by apply elem_of_map_to_list.
  - rewrite pending_of_fresh; [lia|].
    intros Hin. apply list_elem_of_fmap in Hin as ([x vs] & -> & Hin).
    apply elem_of_map_to_list in Hin. simpl in Hg. congruence.
Qed.

Lemma pending_empty graph : pending graph (∅ : gmap string num) = adjacency_entries graph.
Proof.
  unfold pending, adjacency_entries.
  induction (map_to_list graph) as [|[u vs] g IH]; [done|].
  rewrite pending_of_cons, lookup_empty, IH. reflexivity.
Qed.

Lemma cover_travel_time graph positions (ship_speed : num) u v :
  positions_cover graph positions → edge graph u v →
  ∃ w, travel_time positions ship_speed u v = Ret w.
Proof.
  intros Hc He. destruct (Hc u v He) as [[pu Hu] [pv Hv]].
  unfold travel_time, getitem. rewrite Hv, Hu. simpl. eauto.
Qed.

Lemma cover_push graph positions (ship_speed t : num) u p nbrs : ∀ queue,
  positions_cover graph positions → (∀ v, v ∈ nbrs → edge graph u v) →
  ∃ queue'', push_neighbors positions ship_speed t u p nbrs queue = Ret queue''.
Proof.
  induction nbrs as [|v nbrs IH]; intros queue Hc Hn; simpl.
  - eauto.
  - destruct (cover_travel_time graph positions ship_speed u v Hc) as [w ->].
    { apply Hn. by apply elem_of_cons; left. }
    simpl. apply IH; [done|]. intros v' Hv'. apply Hn. by apply elem_of_cons; right.
Qed.

End TimeLaws.

Section OrderedSearch.
Context {num : Type} `{Arith num}.
Variables (graph : gmap string (list string)) (start end_ : string).
Variables (positions : gmap string (vec num)) (ship_speed : num).
Variable ok : num → Prop.
Hypothesis laws : TimeOrder ok.
Hypothesis weights_ok : ∀ u v w,
  travel_time positions ship_speed u v = Ret w → ok w.

Implicit Types (queue : list (entry num)) (visited : gmap string num)
  (u v x : string) (p q : list string) (a b c d t w : num).

Local Notation "a ⪯ b" := (leb a b = true) (at level 70).

Lemma leb_refl a : ok a → a ⪯ a.
Proof. intros Ha. by destruct (leb_total ok laws a a Ha Ha). Qed.

Lemma entry_ltb_true (e1 e2 : entry num) :
  ok e1.1.1 → ok e2.1.1 → entry_ltb e1 e2 = true → e1.1.1 ⪯ e2.1.1.
Proof.
  destruct e1 as [[t1 n1] p1], e2 as [[t2 n2] p2]. unfold entry_ltb. simpl.
  intros H1 H2. destruct (eqb t1 t2) eqn:Heq; simpl.
  - intros _. by apply (eqb_leb ok laws t1 t2).
  - by apply (ltb_leb ok laws).
Qed.

Lemma entry_ltb_false (e1 e2 : entry num) :
  ok e1.1.1 → ok e2.1.1 → entry_ltb e1 e2 = false → e2.1.1 ⪯ e1.1.1.
Proof.
  destruct e1 as [[t1 n1] p1], e2 as [[t2 n2] p2]. unfold entry_ltb. simpl.
  intros H1 H2. destruct (eqb t1 t2) eqn:Heq; simpl.
  - intros _. by apply (eqb_leb ok laws t1 t2).
  - by apply (nltb_leb ok laws).
Qed.

(** On ordered times [heappop] returns an entry of least time. *)
Lemma heappop_min queue m r :
  (∀ e, e ∈ queue → ok e.1.1) →
  heappop queue = Some (m, r) → ∀ e, e ∈ r → m.1.1 ⪯ e.1.1.
Proof.
  revert m r. induction queue as [|e0 rest IH]; intros m r Hok Hpop e He; [done|].
  simpl in Hpop. destruct (heappop rest) as [[m' r']|] eqn:Hrest.
  - assert (Hokr : ∀ e, e ∈ rest → ok e.1.1).
    { intros e' He'. apply Hok. by apply elem_of_cons; right. }
    assert (Hok0 : ok e0.1.1) by (apply Hok; by apply elem_of_cons; left).
    assert (Hokm : ok m'.1.1).
    { apply Hokr. rewrite (heappop_perm _ _ _ Hrest). by apply elem_of_cons; left. }
    specialize (IH m' r' Hokr eq_refl).
    destruct (entry_ltb m' e0) eqn:Hlt; injection Hpop as <- <-.
    + apply elem_of_cons in He as [->|He]; [by apply entry_ltb_true|by apply IH].
    + apply entry_ltb_false in Hlt; [|done..].
      rewrite (heappop_perm _ _ _ Hrest) in He.
      apply elem_of_cons in He as [->|He]; [done|].
      apply (leb_trans ok laws _ m'.1.1); [done|done| |done|by apply IH].
      apply Hokr. rewrite (heappop_perm _ _ _ Hrest). by apply elem_of_cons; right.
  - injection Hpop as <- <-. by apply elem_of_nil in He.
Qed.

(** Every queued and every recorded time is admissible. *)
Definition Sane queue visited : Prop :=
  (∀ e, e ∈ queue → ok e.1.1) ∧ (∀ u d, visited !! u = Some d → ok d).

Lemma sane_init : Sane [(zero, start, [start])] ∅.
Proof.
  split.
  - intros e He. apply list_elem_of_singleton in He as ->. apply (ok_zero ok laws).
  - intros u d Hu. by rewrite lookup_empty in Hu.
Qed.

Lemma sane_popped queue visited t u p r :
  Sane queue visited → heappop queue = Some ((t, u, p), r) → ok t.
Proof.
  intros [Hq _] Hpop. apply (Hq (t, u, p)).
  rewrite (heappop_perm _ _ _ Hpop). by apply elem_of_cons; left.
Qed.

Lemma sane_skip queue visited m r :
  Sane queue visited → heappop queue = Some (m, r) → Sane r visited.
Proof.
  intros [Hq Hv] Hpop. split; [|done].
  intros e He. apply Hq. rewrite (heappop_perm _ _ _ Hpop).
  by apply elem_of_cons; right.
Qed.

Lemma sane_expand queue visited t u p r nbrs queue'' :
  Sane queue visited → heappop queue = Some ((t, u, p), r) →
  push_neighbors positions ship_speed t u p nbrs r = Ret queue'' →
  Sane queue'' (<[u := t]> visited).
Proof.
  intros HS Hpop Hpush. pose proof (sane_popped _ _ _ _ _ _ HS Hpop) as Ht.
  destruct (sane_skip _ _ _ _ HS Hpop) as [Hr Hv].
  destruct (push_neighbors_spec _ _ _ _ _ _ _ _ Hpush) as (_ & _ & _ & Hall).
  split.
  - intros e He. destruct (Hall e He) as [Hin|(v & w & _ & Hw & ->)].
    + by apply Hr.
    + simpl. apply (ok_add ok laws); [done|]. by apply (weights_ok u v).
  - intros u' d Hu'. destruct (decide (u = u')) as [<-|Hne].
    + rewrite lookup_insert_eq in Hu'. by injection Hu' as <-.
    + rewrite lookup_insert_ne in Hu' by done. by apply (Hv u').
Qed.

(** A path's time is admissible and at least the time it starts from. *)
Lemma time_from_ge q : ∀ c t,
  ok c → time_from positions ship_speed c q = Ret t → ok t ∧ c ⪯ t.
Proof.
  induction q as [|a [|b q] IH]; intros c t Hc Ht.
  - injection Ht as <-. split; [done|by apply leb_refl].
  - injection Ht as <-. split; [done|by apply leb_refl].
  - rewrite time_from_step in Ht.
    destruct (travel_time positions ship_speed a b) as [w| |] eqn:Hw;
      cbn [rbind] in Ht; try done.
    apply weights_ok in Hw.
    destruct (IH (add c w) t) as [Hokt Hle]; [by apply (ok_add ok laws)|done|].
    split; [done|].
    apply (leb_trans ok laws c (add c w) t); try done.
    + by apply (ok_add ok laws).
    + by apply (add_le ok laws).
Qed.

(** [x] has been reached within time [c]: it is visited with a time at
    most [c], or queued with one. *)
Definition covered queue visited x c : Prop :=
  (∃ d, visited !! x = Some d ∧ d ⪯ c) ∨
  (∃ t p, (t, x, p) ∈ queue ∧ t ⪯ c).

(** The invariant of the [while] loop. *)
Record Inv queue visited : Prop := {
  inv_entries : ∀ t u p, (t, u, p) ∈ queue →
    connects graph start u p ∧ path_time positions ship_speed p = Ret t;
  inv_start : covered queue visited start zero;
  inv_edges : ∀ u d v w,
    visited !! u = Some d → edge graph u v →
    travel_time positions ship_speed u v = Ret w →
    covered queue visited v (add d w);
  inv_end : visited !! end_ = None
}.

Lemma inv_init : Inv [(zero, start, [start])] ∅.
Proof.
  split.
  - intros t u p Hin. apply list_elem_of_singleton in Hin as [= -> -> ->].
    done.
  - right. exists zero, [start]. split; [by apply list_elem_of_singleton|].
    apply leb_refl, (ok_zero ok laws).
  - intros u d v w Hu. by rewrite lookup_empty in Hu.
  - apply lookup_empty.
Qed.

Lemma covered_mono queue visited x c c' :
  Sane queue visited → ok c → ok c' →
  covered queue visited x c → c ⪯ c' → covered queue visited x c'.
Proof.
  intros [Hq Hv] Hc Hc' [(d & Hd & Hle)|(t & p & Hin & Hle)] Hcc.
  - left. exists d. split; [done|].
    apply (leb_trans ok laws d c c'); try done. by apply (Hv x).
  - right. exists t, p. split; [done|].
    apply (leb_trans ok laws t c c'); try done. apply (Hq _ Hin).
Qed.

Lemma covered_skip queue visited t u p r d x c :
  Sane queue visited → ok c →
  heappop queue = Some ((t, u, p), r) →
  visited !! u = Some d → d ⪯ t →
  covered queue visited x c → covered r visited x c.
Proof.
  intros HS Hc Hpop Hu Hd [Hv|(t' & p' & Hin & Hle)]; [by left|].
  rewrite (heappop_perm _ _ _ Hpop) in Hin.
  apply elem_of_cons in Hin as [[= -> -> ->]|Hin].
  - left. exists d. split; [done|].
    apply (leb_trans ok laws d t c); try done.
    + by apply (proj2 HS u).
    + by eapply sane_popped.
  - right. by exists t', p'.
Qed.

Lemma covered_expand queue visited t u p r queue'' x c :
  Sane queue visited → ok c →
  heappop queue = Some ((t, u, p), r) →
  (∀ d, visited !! u = Some d → t ⪯ d) →
  (∀ e, e ∈ r → e ∈ queue'') →
  covered queue visited x c → covered queue'' (<[u := t]> visited) x c.
Proof.
  intros HS Hc Hpop Hu Hsub [(d & Hd & Hle)|(t' & p' & Hin & Hle)].
  - left. destruct (decide (u = x)) as [->|Hne].
    + exists t. rewrite lookup_insert_eq. split; [done|].
      apply (leb_trans ok laws t d c); try done.
      * by eapply sane_popped.
      * by apply (proj2 HS x).
      * by apply Hu.
    + exists d. by rewrite lookup_insert_ne.
  - rewrite (heappop_perm _ _ _ Hpop) in Hin.
    apply elem_of_cons in Hin as [[= -> -> ->]|Hin].
    + left. exists t. by rewrite lookup_insert_eq.
    + right. exists t', p'. split; [by apply Hsub|done].
Qed.

Lemma inv_skip queue visited t u p r d :
  Sane queue visited → Inv queue visited →
  heappop queue = Some ((t, u, p), r) →
  visited !! u = Some d → d ⪯ t → Inv r visited.
Proof.
  intros HS [He Hs Hed Hend] Hpop Hu Hd. split.
  - intros t' u' p' Hin. apply He. rewrite (heappop_perm _ _ _ Hpop).
    by apply elem_of_cons; right.
  - eapply covered_skip; eauto. apply (ok_zero ok laws).
  - intros u' d' v w Hu' Hedge Hw. eapply covered_skip; eauto.
    apply (ok_add ok laws); [by apply (proj2 HS u')|by apply (weights_ok u' v)].
  - done.
Qed.

Lemma inv_expand queue visited t u p r queue'' :
  Sane queue visited → Inv queue visited →
  heappop queue = Some ((t, u, p), r) →
  u ≠ end_ → (∀ d, visited !! u = Some d → t ⪯ d) →
  push_neighbors positions ship_speed t u p (neighbors graph u) r = Ret queue'' →
  Inv queue'' (<[u := t]> visited).
Proof.
  intros HS [He Hs Hed Hend] Hpop Hne Hu Hpush.
  pose proof (sane_popped _ _ _ _ _ _ HS Hpop) as Hokt.
  destruct (push_neighbors_spec _ _ _ _ _ _ _ _ Hpush) as (_ & Hold & Hnew & Hall).
  assert (Hpopped : (t, u, p) ∈ queue).
  { rewrite (heappop_perm _ _ _ Hpop). by apply elem_of_cons; left. }
  destruct (He t u p Hpopped) as [Hconn Hcost].
  split.
  - intros t' u' p' Hin.
    destruct (Hall _ Hin) as [Hr|(v & w & Hv & Hw & [= -> -> ->])].
    + apply He. rewrite (heappop_perm _ _ _ Hpop). by apply elem_of_cons; right.
    + split; [by eapply connects_snoc|].
      apply time_from_snoc with u; [done| |done]. apply Hconn.
  - eapply covered_expand; eauto. apply (ok_zero ok laws).
  - intros u' d v w Hu' Hedge Hw.
    destruct (decide (u = u')) as [<-|Hne'].
    + rewrite lookup_insert_eq in Hu'. injection Hu' as <-.
      destruct (Hnew v Hedge) as (w' & Hw' & Hin).
      rewrite Hw in Hw'. injection Hw' as <-.
      right. exists (add t w), (p ++ [v]). split; [done|].
      apply leb_refl, (ok_add ok laws); [done|by apply (weights_ok u v)].
    + rewrite lookup_insert_ne in Hu' by done.
      eapply covered_expand; eauto.
      apply (ok_add ok laws); [by apply (proj2 HS u')|by apply (weights_ok u' v)].
  - by rewrite lookup_insert_ne.
Qed.

(** Along an edge-path that ends at [end_], from a node reached within
    [c]: some queued entry has a time at most the path's time from [c]. *)
Lemma frontier queue visited :
  Sane queue visited → Inv queue visited → ∀ q x c tq,
  ok c → covered queue visited x c → head q = Some x → last q = Some end_ →
  edge_path graph q → time_from positions ship_speed c q = Ret tq →
  ∃ e, e ∈ queue ∧ e.1.1 ⪯ tq.
Proof.
  intros HS HI q. induction q as [|a [|b q] IH]; intros x c tq Hc Hcov Hh Hl Hp Ht.
  - done.
  - injection Hh as ->. injection Hl as ->. injection Ht as <-.
    destruct Hcov as [(d & Hd & _)|(t & p & Hin & Hle)].
    + by rewrite (inv_end _ _ HI) in Hd.
    + by exists (t, end_, p).
  - injection Hh as ->.
    destruct (time_from_ge _ _ _ Hc Ht) as [Hoktq Hctq].
    rewrite time_from_step in Ht.
    destruct (travel_time positions ship_speed x b) as [w| |] eqn:Hw;
      cbn [rbind] in Ht; try done.
    pose proof (weights_ok _ _ _ Hw) as Hokw.
    destruct Hp as [Hedge Hp].
    destruct Hcov as [(d & Hd & Hle)|(t & p & Hin & Hle)].
    + pose proof (proj2 HS x d Hd) as Hokd.
      apply (IH b (add c w) tq); try done.
      * by apply (ok_add ok laws).
      * apply covered_mono with (add d w); try done.
        -- by apply (ok_add ok laws).
        -- by apply (ok_add ok laws).
        -- by apply (inv_edges _ _ HI x d b w).
        -- by apply (add_mono ok laws).
    + exists (t, x, p). split; [done|]. simpl.
      apply (leb_trans ok laws t c tq); try done. apply (proj1 HS _ Hin).
Qed.

(** What [search] returns from a state that satisfies the invariant. *)
Lemma search_least fuel : ∀ queue visited p,
  Sane queue visited → Inv queue visited →
  search fuel graph end_ positions ship_speed queue visited = Ret (Some p) →
  ∃ tp, path_time positions ship_speed p = Ret tp ∧
    ∀ q tq, connects graph start end_ q →
      path_time positions ship_speed q = Ret tq → tp ⪯ tq.
Proof.
  induction fuel as [|fuel IH]; intros queue visited r HS HI Hr; [done|].
  cbn [search] in Hr.
  destruct (heappop queue) as [[[[t u] p] queue']|] eqn:Hpop; [|done].
  assert (Hpopped : (t, u, p) ∈ queue).
  { rewrite (heappop_perm _ _ _ Hpop). by apply elem_of_cons; left. }
  pose proof (sane_popped _ _ _ _ _ _ HS Hpop) as Hokt.
  destruct (bool_decide (u = end_)) eqn:Hend.
  - apply bool_decide_eq_true in Hend as ->. injection Hr as <-.
    destruct (inv_entries _ _ HI t end_ p Hpopped) as [Hconn Hcost].
    exists t. split; [done|].
    intros q tq (Hh & Hl & Hp) Hq.
    destruct (frontier queue visited HS HI q start zero tq) as (e & He & Hle);
      try done.
    { apply (ok_zero ok laws). }
    { apply (inv_start _ _ HI). }
    destruct (time_from_ge q zero tq (ok_zero ok laws) Hq) as [Hoktq _].
    rewrite (heappop_perm _ _ _ Hpop) in He.
    apply elem_of_cons in He as [->|He]; [done|].
    apply (leb_trans ok laws t e.1.1 tq); try done.
    + apply (proj1 (sane_skip _ _ _ _ HS Hpop) e He).
    + apply (heappop_min queue (t, end_, p) queue' (proj1 HS) Hpop e He).
  - apply bool_decide_eq_false in Hend.
    destruct (visited !! u) as [d|] eqn:Hu.
    + destruct (leb d t) eqn:Hdt.
      * apply (IH queue' visited); [by eapply sane_skip| |done].
        by eapply inv_skip.
      * destruct (push_neighbors _ _ _ _ _ _ _) as [q''| |] eqn:Hpush;
          cbn [rbind] in Hr; try done.
        apply (IH q'' (<[u := t]> visited)); [by eapply sane_expand| |done].
        eapply inv_expand; eauto.
        intros d' Hd'. rewrite Hu in Hd'. injection Hd' as <-.
        destruct (leb_total ok laws d t (proj2 HS u d Hu) Hokt); [congruence|done].
    + destruct (push_neighbors _ _ _ _ _ _ _) as [q''| |] eqn:Hpush;
        cbn [rbind] in Hr; try done.
      apply (IH q'' (<[u := t]> visited)); [by eapply sane_expand| |done].
      eapply inv_expand; eauto. intros d' Hd'. by rewrite Hu in Hd'.
Qed.

(** *** Termination *)

(** Pops come in order of time: every recorded time is at most some
    bound, and every queued time at least that bound. *)
Definition Mono queue visited : Prop :=
  ∃ b, ok b ∧ (∀ u d, visited !! u = Some d → d ⪯ b) ∧
       (∀ e, e ∈ queue → b ⪯ e.1.1).

Lemma mono_init : Mono [(zero, start, [start])] ∅.
Proof.
  exists zero. split; [apply (ok_zero ok laws)|]. split.
  - intros u d Hu. by rewrite lookup_empty in Hu.
  - intros e He. apply list_elem_of_singleton in He as ->. simpl.
    apply leb_refl, (ok_zero ok laws).
Qed.

Lemma mono_popped queue visited t u p r d :
  Sane queue visited → Mono queue visited →
  heappop queue = Some ((t, u, p), r) →
  visited !! u = Some d → d ⪯ t.
Proof.
  intros HS (b & Hb & Hv & Hq) Hpop Hu.
  assert (Hin : (t, u, p) ∈ queue).
  { rewrite (heappop_perm _ _ _ Hpop). by apply elem_of_cons; left. }
  apply (leb_trans ok laws d b t); try done.
  - by apply (proj2 HS u).
  - by eapply sane_popped.
  - by apply (Hv u).
  - apply (Hq _ Hin).
Qed.

Lemma mono_skip queue visited m r :
  Mono queue visited → heappop queue = Some (m, r) → Mono r visited.
Proof.
  intros (b & Hb & Hv & Hq) Hpop. exists b. split; [done|]. split; [done|].
  intros e He. apply Hq. rewrite (heappop_perm _ _ _ Hpop).
  by apply elem_of_cons; right.
Qed.

Lemma mono_expand queue visited t u p r nbrs queue'' :
  Sane queue visited → Mono queue visited →
  heappop queue = Some ((t, u, p), r) →
  push_neighbors positions ship_speed t u p nbrs r = Ret queue'' →
  Mono queue'' (<[u := t]> visited).
Proof.
  intros HS (b & Hb & Hv & Hq) Hpop Hpush.
  pose proof (sane_popped _ _ _ _ _ _ HS Hpop) as Hokt.
  destruct (push_neighbors_spec _ _ _ _ _ _ _ _ Hpush) as (_ & _ & _ & Hall).
  assert (Hin : (t, u, p) ∈ queue).
  { rewrite (heappop_perm _ _ _ Hpop). by apply elem_of_cons; left. }
  pose proof (Hq _ Hin) as Hbt. simpl in Hbt.
  exists t. split; [done|]. split.
  - intros u' d Hu'. destruct (decide (u = u')) as [<-|Hne].
    + rewrite lookup_insert_eq in Hu'. injection Hu' as <-. by apply leb_refl.
    + rewrite lookup_insert_ne in Hu' by done.
      apply (leb_trans ok laws d b t); try done.
      * by apply (proj2 HS u').
      * by apply (Hv u').
  - intros e He. destruct (Hall e He) as [Hr|(v & w & _ & Hw & ->)].
    + apply (heappop_min queue (t, u, p) r (proj1 HS) Hpop e Hr).
    + simpl. apply (add_le ok laws); [done|by apply (weights_ok u v)].
Qed.

(** The loop ends within [length queue + pending visited + 1] pops. *)
Lemma search_terminates fuel : ∀ queue visited,
  positions_cover graph positions →
  Sane queue visited → Mono queue visited →
  length queue + pending graph visited < fuel →
  ∃ r, search fuel graph end_ positions ship_speed queue visited = Ret r.
Proof.
  induction fuel as [|fuel IH]; intros queue visited Hc HS HM Hlt; [lia|].
  cbn [search].
  destruct (heappop queue) as [[[[t u] p] queue']|] eqn:Hpop; [|eauto].
  pose proof (Permutation_length (heappop_perm _ _ _ Hpop)) as Hlen.
  simpl in Hlen.
  destruct (bool_decide (u = end_)); [eauto|].
  destruct (visited !! u) as [d|] eqn:Hu.
  - rewrite (mono_popped _ _ _ _ _ _ _ HS HM Hpop Hu).
    apply IH; [done|by eapply sane_skip|by eapply mono_skip|lia].
  - destruct (cover_push graph positions ship_speed t u p (neighbors graph u)
                queue' Hc) as [q'' Hpush]; [done|].
    change (default [] (graph !! u)) with (neighbors graph u).
    rewrite Hpush. cbn [rbind].
    destruct (push_neighbors_spec _ _ _ _ _ _ _ _ Hpush) as (Hlen'' & _).
    pose proof (pending_insert graph visited u t Hu) as Hpend.
    apply IH; [done|by eapply sane_expand|by eapply mono_expand|lia].
Qed.

End OrderedSearch.

(** C2 (amended). For every arithmetic whose times are ordered, binary64
    on times that are not NaN included: when [fastest_path] returns a
    path, the path's total time, added up in path order as the search
    does, is at most the total time of every edge-path from [start] to
    [end_] in the graph. *)
Theorem fastest_path_optimal {num : Type} `{Arith num} (ok : num → Prop)
    fuel graph start end_ (positions : gmap string (vec num))
    (ship_speed : num) p :
  TimeOrder ok →
  (∀ u v w, travel_time positions ship_speed u v = Ret w → ok w) →
  fastest_path fuel graph start end_ positions ship_speed = Ret (Some p) →
  ∃ tp, path_time positions ship_speed p = Ret tp ∧
    ∀ q tq, connects graph start end_ q →
      path_time positions ship_speed q = Ret tq → leb tp tq = true.
Proof.
  intros Hlaws Hw Hr. unfold fastest_path in Hr.
  eapply (search_least graph start end_ positions ship_speed ok Hlaws Hw fuel);
    [| |exact Hr].
  - by apply sane_init.
  - by apply (inv_init graph start end_ positions ship_speed ok).
Qed.

(** C3 (amended). For every arithmetic whose times are ordered, binary64
    on times that are not NaN included, and a position for every node
    that has an edge: [fastest_path] returns (any fuel from [fuel_bound]
    on is enough), and it returns either an edge-path whose first node is
    [start] and whose last node is [end_], or [None]; it returns [None]
    exactly when no edge-path connects [start] to [end_]. *)
Theorem fastest_path_reachability {num : Type} `{Arith num} (ok : num → Prop)
    graph start end_ (positions : gmap string (vec num)) (ship_speed : num)
    fuel :
  TimeOrder ok →
  (∀ u v w, travel_time positions ship_speed u v = Ret w → ok w) →
  positions_cover graph positions →
  fuel_bound graph ≤ fuel →
  ∃ r, fastest_path fuel graph start end_ positions ship_speed = Ret r ∧
    (∀ p, r = Some p →
       head p = Some start ∧ last p = Some end_ ∧ edge_path graph p) ∧
    (r = None ↔ ∀ q, ¬ connects graph start end_ q).
Proof.
  intros Hlaws Hw Hc Hfuel. unfold fastest_path.
  assert (Hret : ∃ r, search fuel graph end_ positions ship_speed
                        [(zero, start, [start])] ∅ = Ret r).
  { apply (search_terminates graph end_ positions ship_speed ok Hlaws Hw fuel).
    - done.
    - by apply sane_init.
    - by apply mono_init.
    - rewrite pending_empty. unfold fuel_bound in Hfuel. simpl. lia. }
  destruct Hret as [r Hr].
  exists r. split; [done|].
  pose proof (search_closed fuel graph start end_ positions ship_speed _ _ r
                (closed_init graph start end_ zero) Hr) as Hsound.
  destruct r as [p|].
  - split.
    + intros p' [= <-]. exact Hsound.
    + split; [done|]. intros Hno. by destruct (Hno p).
  - split; [done|]. by split.
Qed.

(** * Consequences of ordered times *)

Section OrderedPaths.
Context {num : Type} `{Arith num}.
Variable ok : num → Prop.
Hypothesis laws : TimeOrder ok.

(** Every queued path is its node appended to a duplicate-free list of
    visited nodes, and the goal is not visited. *)
Definition Simple (end_ : string) (queue : list (entry num))
    (visited : gmap string num) : Prop :=
  visited !! end_ = None ∧
  ∀ t u p, (t, u, p) ∈ queue →
    ∃ p', p = p' ++ [u] ∧ NoDup p' ∧ ∀ x, x ∈ p' → is_Some (visited !! x).

Lemma simple_init start end_ (t0 : num) : Simple end_ [(t0, start, [start])] ∅.
Proof.
  split; [apply lookup_empty|]. intros t u p Hin.
  apply list_elem_of_singleton in Hin as [= -> -> ->].
  exists []. split; [done|]. split; [constructor|].
  intros x Hx. by apply elem_of_nil in Hx.
Qed.

Lemma search_simple graph end_ (positions : gmap string (vec num))
    (ship_speed : num) fuel :
  (∀ u v w, travel_time positions ship_speed u v = Ret w → ok w) →
  ∀ queue visited p,
  Sane ok queue visited → Mono ok queue visited → Simple end_ queue visited →
  search fuel graph end_ positions ship_speed queue visited = Ret (Some p) →
  NoDup p.
Proof.
  intros Hw. induction fuel as [|fuel IH]; intros queue visited p HSa HM HS Hr;
    [done|].
  cbn [search] in Hr.
  destruct (heappop queue) as [[[[t u] p0] queue']|] eqn:Hpop; [|done].
  pose proof (heappop_perm _ _ _ Hpop) as Hperm.
  destruct HS as [Hend Hent].
  destruct (Hent t u p0) as (p0' & -> & Hnd & Hvis).
  { rewrite Hperm. by apply elem_of_cons; left. }
  assert (Hrest : ∀ t' u' p', (t', u', p') ∈ queue' → (t', u', p') ∈ queue).
  { intros t' u' p' Hin. rewrite Hperm. by apply elem_of_cons; right. }
  destruct (bool_decide (u = end_)) eqn:Hgoal.
  { apply bool_decide_eq_true in Hgoal as ->. injection Hr as <-.
    apply NoDup_app. split; [done|]. split; [|apply NoDup_singleton].
    intros x Hx Hx'. apply list_elem_of_singleton in Hx' as ->.
    destruct (Hvis _ Hx) as [d Hd]. congruence. }
  apply bool_decide_eq_false in Hgoal.
  destruct (visited !! u) as [d|] eqn:Hu.
  - rewrite (mono_popped ok laws _ _ _ _ _ _ _ HSa HM Hpop Hu) in Hr.
    apply (IH queue' visited); [by eapply sane_skip|by eapply mono_skip| |done].
    split; [done|]. intros t' u' p' Hin.
    exact (Hent t' u' p' (Hrest _ _ _ Hin)).
  - destruct (push_neighbors _ _ _ _ _ _ _) as [q''| |] eqn:Hpush;
      cbn [rbind] in Hr; try done.
    destruct (push_neighbors_spec _ _ _ _ _ _ _ _ Hpush) as (_ & _ & _ & Hall).
    apply (IH q'' (<[u := t]> visited)); [| | |done].
    { eapply sane_expand; eauto. }
    { eapply mono_expand; eauto. }
    assert (Hgrow : ∀ x, is_Some (visited !! x) → is_Some (<[u := t]> visited !! x)).
    { intros x [d Hd]. destruct (decide (u = x)) as [->|Hne].
      - rewrite lookup_insert_eq. by eexists.
      - rewrite lookup_insert_ne by done. by eexists. }
    split; [by rewrite lookup_insert_ne|].
    intros t' u' p' Hin.
    destruct (Hall _ Hin) as [Hold|(v & w & _ & _ & [= -> -> ->])].
    + destruct (Hent t' u' p' (Hrest _ _ _ Hold)) as (q' & -> & Hq' & Hvq).
      exists q'. split; [done|]. split; [done|]. intros x Hx. by apply Hgrow, Hvq.
    + exists (p0' ++ [u]). split; [done|]. split.
      * apply NoDup_app. split; [done|]. split; [|apply NoDup_singleton].
        intros x Hx Hx'. apply list_elem_of_singleton in Hx' as ->.
        destruct (Hvis _ Hx) as [d Hd]. congruence.
      * intros x Hx. apply elem_of_app in Hx as [Hx|Hx].
        -- by apply Hgrow, Hvis.
        -- apply list_elem_of_singleton in Hx as ->.
           rewrite lookup_insert_eq. by eexists.
Qed.

(** X14. For every arithmetic whose times are ordered, binary64 on times
    that are not NaN included: a path that [fastest_path] returns passes
    through no waypoint twice. *)
Theorem fastest_path_no_repeat fuel graph start end_
    (positions : gmap string (vec num)) (ship_speed : num) p :
  (∀ u v w, travel_time positions ship_speed u v = Ret w → ok w) →
  fastest_path fuel graph start end_ positions ship_speed = Ret (Some p) →
  NoDup p.
Proof.
  intros Hw Hr.
  apply (search_simple graph end_ positions ship_speed fuel Hw _ _ p
           (sane_init start ok laws) (mono_init start ok laws)
           (simple_init start end_ zero) Hr).
Qed.

(** X28. For every arithmetic whose times are ordered at every
    configured speed: the set-up loop of [main] returns, with neither
    [KeyError] nor an endless search, when every node that has an edge
    has a position and every ship's start is a key of [planets] (fuel
    from [fuel_bound] on is enough for each search). *)
Theorem setup_ships_returns fuel (planets : gmap string (vec num)) graph
    (ds : list (ShipData num)) : ∀ ships cul out,
  positions_cover graph planets →
  Forall (λ d : ShipData num,
    is_Some (planets !! sd_start d) ∧
    ∀ u v w, travel_time planets (sd_speed d) u v = Ret w → ok w) ds →
  fuel_bound graph ≤ fuel →
  ∃ r, setup_ships fuel planets graph ds ships cul out = Ret r.
Proof.
  intros ships cul out Hc Hds Hfuel. revert ships cul out.
  induction Hds as [|s ds [[start_pos Hs] Hw] _ IH]; intros ships cul out.
  - simpl. eauto.
  - cbn [setup_ships]. unfold getitem at 1. rewrite Hs.
    cbn [rbind speed new_ship].
    destruct (search_terminates graph (sd_end s) planets (sd_speed s) ok laws
                Hw fuel [(zero, sd_start s, [sd_start s])] ∅ Hc
                (sane_init (sd_start s) ok laws)
                (mono_init (sd_start s) ok laws)) as [r Hr].
    { rewrite pending_empty. unfold fuel_bound in Hfuel. simpl. lia. }
    unfold fastest_path. rewrite Hr. cbn [rbind].
    destruct r as [p|]; [|apply IH].
    pose proof (search_closed _ _ _ _ _ _ _ _ _
                  (closed_init graph (sd_start s) (sd_end s) zero) Hr)
      as (Hh & _ & _).
    assert (Hpl : placed planets p).
    { eapply search_placed; [|exact Hr].
      intros e He. apply list_elem_of_singleton in He as ->. constructor. }
    destruct p as [|x p]; [done|]. injection Hh as ->.
    destruct (coords_placed planets (sd_start s :: p)) as (cs & Hcs & _).
    { constructor; [by eexists|exact Hpl]. }
    rewrite Hcs. cbn [rbind]. destruct (set_path _ cs cul). apply IH.
Qed.

End OrderedPaths.

(** * Ordered times in binary64 *)

(** ** A carrier of ordered times *)

(** A finite set of binary64 times that is closed under addition has to
    reach infinity: the multiples of 2^1022, the fourth of which
    overflows. *)
Definition coarse_unit : float := 0x1p+1022%float.

Definition coarse (x : float) : Prop :=
  x = 0%float ∨ x = coarse_unit ∨ x = (coarse_unit + coarse_unit)%float ∨
  x = (coarse_unit + coarse_unit + coarse_unit)%float ∨ x = infinity.

Ltac coarse_cases H :=
  destruct H as [-> | [-> | [-> | [-> | ->]]]].

Lemma coarse_order : TimeOrder coarse.
Proof.
  split.
  - by left.
  - intros a w Ha Hw. coarse_cases Ha; coarse_cases Hw; vm_compute; auto 7.
  - intros a b Ha Hb. coarse_cases Ha; coarse_cases Hb; vm_compute; auto.
  - intros a b c Ha Hb Hc. coarse_cases Ha; coarse_cases Hb; coarse_cases Hc;
      vm_compute; congruence.
  - intros a b Ha Hb. coarse_cases Ha; coarse_cases Hb; vm_compute; congruence.
  - intros a b Ha Hb. coarse_cases Ha; coarse_cases Hb; vm_compute; congruence.
  - intros a b Ha Hb. coarse_cases Ha; coarse_cases Hb; vm_compute;
      intros; split; congruence.
  - intros a w Ha Hw. coarse_cases Ha; coarse_cases Hw; vm_compute; reflexivity.
  - intros a b w Ha Hb Hw. coarse_cases Ha; coarse_cases Hb; coarse_cases Hw;
      vm_compute; congruence.
Qed.

(** Five planets on a line, 2^500 apart, and a ship so slow that a step
    of 2^500 takes the time 2^1022. *)
Definition line_planets : gmap string (vec float) :=
  <["A" := (0%float, 0%float)]>
  (<["B" := (0x1p+500%float, 0%float)]>
  (<["C" := ((-0x1p+500)%float, 0%float)]>
  (<["D" := (0x1p+501%float, 0%float)]>
  (<["E" := (0x1.8p+501%float, 0%float)]> ∅)))).

Definition line_routes : list (string * string) :=
  [("A", "C"); ("C", "D"); ("A", "B"); ("B", "D")].

Definition line_speed : float := 0x1p-522%float.

Lemma line_times_coarse u v w :
  travel_time line_planets line_speed u v = Ret w → coarse w.
Proof.
  unfold travel_time, getitem.
  destruct (line_planets !! v) as [pv|] eqn:Hv; [|done].
  destruct (line_planets !! u) as [pu|] eqn:Hu; [|done].
  cbn [rbind]. intros [= <-]. unfold line_planets in Hv, Hu.
  repeat (apply lookup_insert_Some in Hv as [[_ <-]|[_ Hv]]);
    try (by rewrite lookup_empty in Hv);
    repeat (apply lookup_insert_Some in Hu as [[_ <-]|[_ Hu]]);
    try (by rewrite lookup_empty in Hu);
    vm_compute; auto 7.
Qed.

(** [positions_cover], checked on the adjacency lists. *)
Definition cover_check {V} (graph : gmap string (list string))
    (positions : gmap string V) : bool :=
  forallb (λ '(u, vs),
      bool_decide (is_Some (positions !! u)) &&
      forallb (λ v, bool_decide (is_Some (positions !! v))) vs)
    (map_to_list graph).

Lemma cover_check_sound graph (positions : gmap string (vec float)) :
  cover_check graph positions = true → positions_cover graph positions.
Proof.
  unfold cover_check, positions_cover, edge, neighbors.
  intros Hc u v Hv. rewrite forallb_forall in Hc.
  destruct (graph !! u) as [vs|] eqn:Hu; simpl in Hv;
    [|by apply elem_of_nil in Hv].
  apply elem_of_map_to_list in Hu. apply list_elem_of_In in Hu.
  specialize (Hc _ Hu). simpl in Hc.
  apply andb_true_iff in Hc as [H1 H2].
  apply bool_decide_eq_true in H1. split; [done|].
  rewrite forallb_forall in H2. apply list_elem_of_In in Hv.
  specialize (H2 _ Hv). by apply bool_decide_eq_true in H2.
Qed.

Lemma fastest_path_optimal_witness :
  fastest_path 10 (build_graph line_routes) "A" "D" line_planets line_speed
    = Ret (Some ["A"; "B"; "D"]) ∧
  ∃ tp, path_time line_planets line_speed ["A"; "B"; "D"] = Ret tp ∧
    ∀ q tq, connects (build_graph line_routes) "A" "D" q →
      path_time line_planets line_speed q = Ret tq → leb tp tq = true.
Proof.
  split; [vm_compute; reflexivity|].
  apply (fastest_path_optimal coarse 10 (build_graph line_routes) "A" "D"
           line_planets line_speed ["A"; "B"; "D"]).
  - exact coarse_order.
  - exact line_times_coarse.
  - vm_compute. reflexivity.
Defined.

Lemma fastest_path_reachability_witness :
  ∃ r, fastest_path 10 (build_graph line_routes) "A" "E" line_planets line_speed
       = Ret r ∧
    (∀ p, r = Some p →
       head p = Some "A" ∧ last p = Some "E" ∧
       edge_path (build_graph line_routes) p) ∧
    (r = None ↔ ∀ q, ¬ connects (build_graph line_routes) "A" "E" q).
Proof.
  apply (fastest_path_reachability coarse (build_graph line_routes) "A" "E"
           line_planets line_speed 10).
  - exact coarse_order.
  - exact line_times_coarse.
  - apply cover_check_sound. vm_compute. reflexivity.
  - vm_compute. lia.
Defined.

(** ** Times that are not ordered *)

(** A planet typed in with the coordinate nan (which [float] accepts):
    every time measured from it is NaN, and NaN compares false with
    everything. *)
Definition nan_planets : gmap string (vec float) :=
  <["A" := (nan, 0%float)]> (<["B" := (0%float, 0%float)]>
  (<["C" := (5%float, 5%float)]> ∅)).

Definition nan_routes : list (string * string) := [("A", "B")].

(** C2 as stated fails.  Planets A=(nan,0) and B=(0,0), the route A-B,
    speed 5: [fastest_path] returns [A, B], whose total time is NaN; the
    edge-path [A, B, A, B] has the total time NaN too, and NaN <= NaN is
    false.  The queue never holds more than one entry in this run. *)
Lemma fastest_path_time_not_least :
  fastest_path 5 (build_graph nan_routes) "A" "B" nan_planets 5%float
    = Ret (Some ["A"; "B"]) ∧
  connects (build_graph nan_routes) "A" "B" ["A"; "B"; "A"; "B"] ∧
  ∃ tp tq,
    path_time nan_planets 5%float ["A"; "B"] = Ret tp ∧
    path_time nan_planets 5%float ["A"; "B"; "A"; "B"] = Ret tq ∧
    PrimFloat.leb tp tq = false.
Proof.
  split; [vm_compute; reflexivity|]. split.
  - split; [done|]. split; [done|].
    repeat split; unfold edge; vm_compute; repeat constructor.
  - exists nan, nan. repeat split; vm_compute; reflexivity.
Qed.

(** From a queue that holds one entry of time NaN for A or B, the search
    for C goes on for ever: no recorded time is [<=] NaN, so the node is
    expanded again and its only neighbour queued with the time NaN. *)
Lemma search_nan_loops fuel : ∀ node path (visited : gmap string float),
  node = "A" ∨ node = "B" →
  (∀ u d, visited !! u = Some d → PrimFloat.leb d nan = false) →
  search fuel (build_graph nan_routes) "C" nan_planets 5%float
    [(nan, node, path)] visited = Timeout.
Proof.
  induction fuel as [|fuel IH]; intros node path visited Hnode Hvis; [done|].
  cbn [search heappop].
  rewrite bool_decide_eq_false_2 by (by destruct Hnode as [->| ->]).
  assert (Hskip : match visited !! node with
                  | Some t => leb t nan
                  | None => false
                  end = false).
  { destruct (visited !! node) as [d|] eqn:Hd; [|done]. apply (Hvis _ _ Hd). }
  rewrite Hskip.
  assert (Hvis' : ∀ u d, <[node := nan]> visited !! u = Some d →
                         PrimFloat.leb d nan = false).
  { intros u d Hu. destruct (decide (node = u)) as [<-|Hne].
    - rewrite lookup_insert_eq in Hu. by injection Hu as <-.
    - rewrite lookup_insert_ne in Hu by done. by apply (Hvis u). }
  destruct Hnode as [->| ->].
  - replace (default [] (build_graph nan_routes !! "A")) with ["B"]
      by (vm_compute; reflexivity).
    cbn [push_neighbors].
    replace (travel_time nan_planets 5%float "A" "B") with (Ret nan)
      by (vm_compute; reflexivity).
    cbn [rbind heappush]. apply IH; [by right|done].
  - replace (default [] (build_graph nan_routes !! "B")) with ["A"]
      by (vm_compute; reflexivity).
    cbn [push_neighbors].
    replace (travel_time nan_planets 5%float "B" "A") with (Ret nan)
      by (vm_compute; reflexivity).
    cbn [rbind heappush]. apply IH; [by left|done].
Qed.

(** An edge-path between two different nodes ends with an edge. *)
Lemma edge_path_last_edge graph q : ∀ x y,
  head q = Some x → last q = Some y → edge_path graph q → x ≠ y →
  ∃ u, edge graph u y.
Proof.
  induction q as [|a [|b q] IH]; intros x y Hh Hl Hp Hxy.
  - done.
  - injection Hh as ->. injection Hl as ->. done.
  - destruct Hp as [Hab Hp]. destruct (decide (b = y)) as [->|Hne].
    + by exists a.
    + apply (IH b y); try done.
Qed.

(** C3 as stated fails.  Planets A=(nan,0), B=(0,0) and C=(5,5), the
    route A-B, speed 5: no edge-path connects A to C, but [fastest_path]
    from A to C returns neither a path nor [None]: it never returns,
    whatever the fuel. *)
Lemma fastest_path_never_returns :
  is_Some (nan_planets !! "A") ∧ is_Some (nan_planets !! "C") ∧
  (∀ q, ¬ connects (build_graph nan_routes) "A" "C" q) ∧
  ∀ fuel,
    fastest_path fuel (build_graph nan_routes) "A" "C" nan_planets 5%float
    = Timeout.
Proof.
  split; [by vm_compute; eauto|]. split; [by vm_compute; eauto|]. split.
  { intros q (Hh & Hl & Hp).
    destruct (edge_path_last_edge _ q "A" "C" Hh Hl Hp) as [u Hu]; [done|].
    apply (add_routes_inv nan_routes ∅) in Hu as [Hu|[Hu|Hu]].
    - unfold neighbors in Hu. rewrite lookup_empty in Hu.
      by apply elem_of_nil in Hu.
    - apply list_elem_of_singleton in Hu. discriminate.
    - apply list_elem_of_singleton in Hu. discriminate. }
  intros [|fuel]; [done|]. unfold fastest_path. cbn [search heappop].
  rewrite bool_decide_eq_false_2 by done. rewrite lookup_empty.
  replace (default [] (build_graph nan_routes !! "A")) with ["B"]
    by (vm_compute; reflexivity).
  cbn [push_neighbors].
  replace (travel_time nan_planets 5%float "A" "B") with (Ret nan)
    by (vm_compute; reflexivity).
  cbn [rbind heappush].
  apply search_nan_loops; [by right|].
  intros u d Hu. destruct (decide ("A" = u)) as [<-|Hne].
  - rewrite lookup_insert_eq in Hu. by injection Hu as <-.
  - rewrite lookup_insert_ne in Hu by done. by rewrite lookup_empty in Hu.
Qed.

Lemma fastest_path_no_repeat_witness :
  fastest_path 10 (build_graph line_routes) "A" "D" line_planets line_speed
    = Ret (Some ["A"; "B"; "D"]) ∧
  NoDup ["A"; "B"; "D"].
Proof.
  split; [vm_compute; reflexivity|].
  apply (fastest_path_no_repeat coarse coarse_order 10 (build_graph line_routes)
           "A" "D" line_planets line_speed ["A"; "B"; "D"]).
  - exact line_times_coarse.
  - vm_compute. reflexivity.
Defined.

Lemma setup_ships_returns_witness :
  ∃ r, setup_ships 10 line_planets (build_graph line_routes)
         [mkShipData "s1" "A" "D" line_speed; mkShipData "s2" "C" "E" line_speed]
         [] [] [] = Ret r.
Proof.
  apply (setup_ships_returns coarse coarse_order 10 line_planets
           (build_graph line_routes)
           [mkShipData "s1" "A" "D" line_speed; mkShipData "s2" "C" "E" line_speed]
           [] [] []).
  - apply cover_check_sound. vm_compute. reflexivity.
  - repeat (apply Forall_cons; split; [split|]); try apply Forall_nil_2;
      try (by vm_compute; eauto); exact line_times_coarse.
  - vm_compute. lia.
Defined.

(** * A tick per leg *)

Section LegTicks.
Context {num : Type} `{Arith num}.
Implicit Types (s : Ship num) (cul : Cul num).






End LegTicks.

(** In binary64 a leg can take a tick more than [ceil (leg / speed)]:
    one leg of length 10 at speed 1.  After ten ticks the ship stands at
    (5.9999999999999991, 7.9999999999999991) and still heads for (6,8);
    it is idle after the eleventh. *)
Example leg_takes_an_extra_tick :
  let p := [(0%float, 0%float); (6%float, 8%float)] in
  let r := set_path (new_ship "S" (0%float, 0%float) 1%float) p [] in
  total_path_length p = 10%float ∧
  target (ticks 10 r.1 r.2).1 = Some (6%float, 8%float) ∧
  target (ticks 11 r.1 r.2).1 = None.
Proof. vm_compute. repeat split; reflexivity. Qed.


(** * A leg that rounding closes on *)

(** A ship at (0,0), path [(0,0),(7,24),(14,48)], speed 5, after
    [set_path]: two legs of length 25. *)
Definition rounding_ship : Ship float * Cul float :=
  set_path (new_ship "S" (0%float, 0%float) 5%float)
    [(0%float, 0%float); (7%float, 24%float); (14%float, 48%float)] [].

(** The ship after six ticks. *)
Definition stuck_ship : Ship float :=
  (ticks 6 rounding_ship.1 rounding_ship.2).1.

(** From then on a tick changes nothing in the ship and logs one
    [distance_traveled]. *)
Lemma stuck_ship_ticks n : ∀ cul,
  (ticks n stuck_ship cul).1 = stuck_ship ∧
  kinds (ticks n stuck_ship cul).2 = kinds cul ++ repeat distance_traveled n.
Proof.
  induction n as [|n IH]; intros cul.
  - split; [done|]. simpl. by rewrite app_nil_r.
  - cbn [ticks]. rewrite update_log.
    set (u := update stuck_ship []).
    assert (Hu1 : u.1 = stuck_ship) by (vm_compute; reflexivity).
    assert (Hu2 : kinds u.2 = [distance_traveled]) by (vm_compute; reflexivity).
    rewrite Hu1. destruct (IH (cul ++ u.2)) as [IH1 IH2].
    split; [done|]. rewrite IH2. unfold kinds in *.
    rewrite fmap_app, Hu2, <- app_assoc. reflexivity.
Qed.

(** C5 (fails on the code).  The fifth tick of the first leg measures
    the distance 5.000000000000001 to (7,24), so it steps by the speed 5
    and the arrival check [dist <= speed] fails; the step, rounded, puts
    the ship exactly on (7,24), which stays its target.  The sixth tick is
    then a zero-length leg: 0/0 is NaN, the position becomes (NaN, NaN),
    and only now are [route_exit] and the next [route_enter] logged, after
    six [distance_traveled].  A position that is NaN never reaches
    (14,48): every further tick logs one more [distance_traveled], the
    ship is never idle and the second [route_exit] is never logged. *)
Theorem rounded_arrival_never_idle :
  let s5 := (ticks 5 rounding_ship.1 rounding_ship.2).1 in
  let r6 := ticks 6 rounding_ship.1 rounding_ship.2 in
  pos s5 = (7%float, 24%float) ∧
  target s5 = Some (7%float, 24%float) ∧
  target_index s5 = 1 ∧
  PrimFloat.ltb 5%float (distance (pos (ticks 4 rounding_ship.1 rounding_ship.2).1)
                           (7%float, 24%float)) = true ∧
  PrimFloat.is_nan (pos r6.1).1 = true ∧
  PrimFloat.is_nan (pos r6.1).2 = true ∧
  target r6.1 = Some (14%float, 48%float) ∧
  kinds r6.2 =
    [route_enter; distance_traveled; distance_traveled; distance_traveled;
     distance_traveled; distance_traveled; distance_traveled; route_exit;
     route_enter] ∧
  ∀ n,
    target (ticks n r6.1 r6.2).1 = Some (14%float, 48%float) ∧
    kinds (ticks n r6.1 r6.2).2 = kinds r6.2 ++ repeat distance_traveled n.
Proof.
  cbv zeta. repeat split; try (vm_compute; reflexivity).
  - change (ticks 6 rounding_ship.1 rounding_ship.2).1 with stuck_ship.
    rewrite (proj1 (stuck_ship_ticks n _)). vm_compute. reflexivity.
  - change (ticks 6 rounding_ship.1 rounding_ship.2).1 with stuck_ship.
    apply stuck_ship_ticks.
Qed.

(** * Errors in the set-up *)

Section SetupErrors.
Context {num : Type} `{Arith num}.
Implicit Types (planets : gmap string (vec num))
  (graph : gmap string (list string)) (ships : list (Ship num))
  (cul : Cul num) (out : list string).

(** The set-up loop over [pre ++ rest] is the loop over [pre], then, if
    that returned, the loop over [rest] from what it left. *)
Lemma setup_ships_app fuel planets graph (pre rest : list (ShipData num)) :
  ∀ ships cul out,
  setup_ships fuel planets graph (pre ++ rest) ships cul out =
  rbind (setup_ships fuel planets graph pre ships cul out) (λ r,
    setup_ships fuel planets graph rest r.1.1 r.1.2 r.2).
Proof.
  induction pre as [|d pre IH]; intros ships cul out; [done|].
  change ((d :: pre) ++ rest) with (d :: (pre ++ rest)).
  cbn [setup_ships].
  destruct (getitem planets (sd_start d)) as [start_pos| |]; cbn [rbind]; try done.
  destruct (fastest_path fuel graph (sd_start d) (sd_end d) planets _)
    as [[[|x p]|]| |]; cbn [rbind]; try done; try apply IH.
  destruct (coords planets (x :: p)) as [cs| |]; cbn [rbind]; try done.
  destruct (set_path _ cs cul) as [ship' cul']. apply IH.
Qed.

(** X16. A configured ship whose start is not a key of [planets] makes
    the set-up loop raise [KeyError] when its turn comes: if the ships
    configured before it are set up without an error, the set-up of the
    whole configuration ends in [KeyError], whatever ships follow. *)
Theorem setup_ships_missing_start fuel planets graph
    (pre post : list (ShipData num)) s ships cul out r :
  planets !! sd_start s = None →
  setup_ships fuel planets graph pre ships cul out = Ret r →
  setup_ships fuel planets graph (pre ++ s :: post) ships cul out = KeyErr.
Proof.
  intros Hs Hpre. rewrite setup_ships_app, Hpre. cbn [rbind setup_ships].
  unfold getitem. by rewrite Hs.
Qed.

End SetupErrors.

Lemma setup_ships_missing_start_witness :
  demo_planets !! "Z" = None ∧
  setup_ships 10 demo_planets (build_graph demo_routes)
    ([demo_ship "s1" "A" "C" 5%float] ++
     demo_ship "lost" "Z" "A" 5%float :: [demo_ship "s3" "C" "A" 20%float])
    [] [] []
  = KeyErr.
Proof.
  split; [vm_compute; reflexivity|].
  eapply (setup_ships_missing_start 10 demo_planets (build_graph demo_routes)
            [demo_ship "s1" "A" "C" 5%float] [demo_ship "s3" "C" "A" 20%float]
            (demo_ship "lost" "Z" "A" 5%float)).
  - vm_compute. reflexivity.
  - vm_compute. reflexivity.
Defined.
